(** * The incremental command of restic: a shallow embedding of
      [cmd/restic/cmd_incremental.go] and [cmd/restic/include.go]

    The development follows the Go sources function by function:
    [addNode], [makeTree], [runIncremental] of cmd_incremental.go and
    [Empty], [GetPathsFromPatterns] of include.go.  Go strings are
    byte strings compared bytewise, here [string] with [String.ltb];
    a [restic.ID] is a 32-byte array, here its value as an [N]; a
    pointer that may be nil is an [option].  The repository is a
    content-addressed object store that is passed along explicitly,
    together with a journal of the storage calls that were made. *)

From Stdlib Require Import String Ascii List NArith ZArith Bool Lia Sorted.
From Stdlib Require OrderedTypeEx.
From stdpp Require Import gmap.
Import ListNotations.

Local Open Scope string_scope.
Local Open Scope list_scope.

(** ** Go library functions used by the command *)

Module GoStrings.

(** [strings.HasPrefix(s, prefix)]. *)
Definition HasPrefix (s prefix : string) : bool := String.prefix prefix s.

(** Insertion into an ascending list, the step of [Strings]. *)
Fixpoint insert_sorted (x : string) (l : list string) : list string :=
  match l with
  | [] => [x]
  | y :: l' => if String.leb x y then x :: y :: l' else y :: insert_sorted x l'
  end.

(** [sort.Strings]: the ascending rearrangement of the slice.  Equal
    strings are indistinguishable, so every sorting algorithm yields
    this list. *)
Fixpoint Strings (l : list string) : list string :=
  match l with
  | [] => []
  | x :: l' => insert_sorted x (Strings l')
  end.

End GoStrings.

Module filepath.

Definition slash : ascii := "/"%char.

Definition is_sep (c : ascii) : bool := Ascii.eqb c slash.

(** The path elements between separators, e.g. ["/a//b"] gives
    [[""; "a"; ""; "b"]]. *)
Fixpoint split_sep (cur : list ascii) (l : list ascii) : list (list ascii) :=
  match l with
  | [] => [rev cur]
  | c :: l' => if is_sep c then rev cur :: split_sep [] l'
               else split_sep (c :: cur) l'
  end.

Definition dot : list ascii := ["."%char].
Definition dotdot : list ascii := ["."%char; "."%char].

Definition elem_eqb (a b : list ascii) : bool :=
  String.eqb (string_of_list_ascii a) (string_of_list_ascii b).

(** One step of the element loop of [Clean]: [out] holds the elements
    written so far, last one first; [ups] counts the leading [..]
    elements of a relative path, which cannot be backtracked over. *)
Definition clean_step (rooted : bool) (st : nat * list (list ascii))
           (e : list ascii) : nat * list (list ascii) :=
  let '(ups, out) := st in
  match e with
  | [] => st
  | _ =>
    if elem_eqb e dot then st
    else if elem_eqb e dotdot then
      match out with
      | _ :: out' => (ups, out')
      | [] => if rooted then st else (S ups, [])
      end
    else (ups, e :: out)
  end.

Fixpoint join_sep (es : list (list ascii)) : list ascii :=
  match es with
  | [] => []
  | [e] => e
  | e :: es' => e ++ slash :: join_sep es'
  end.

(** [filepath.Clean] on Unix (no volume names): multiple separators
    collapse, [.] elements vanish, an inner [..] removes the element
    before it, a [..] at the root vanishes, the empty result is ["."]. *)
Definition Clean (path : string) : string :=
  match list_ascii_of_string path with
  | [] => "."
  | c :: l' =>
    let rooted := is_sep c in
    let '(ups, out) := fold_left (clean_step rooted) (split_sep [] (c :: l')) (0, []) in
    let body := join_sep (repeat dotdot ups ++ rev out) in
    match (if rooted then slash :: body else body) with
    | [] => "."
    | r => string_of_list_ascii r
    end
  end.

(** Drops the characters after the last separator (scanning from the
    end of the reversed path), keeping the separator. *)
Fixpoint drop_last_elem (rl : list ascii) : list ascii :=
  match rl with
  | [] => []
  | c :: rl' => if is_sep c then rl else drop_last_elem rl'
  end.

(** [filepath.Dir]: all but the last element of the path, cleaned. *)
Definition Dir (path : string) : string :=
  Clean (string_of_list_ascii (rev (drop_last_elem (rev (list_ascii_of_string path))))).

Fixpoint strip_seps (rl : list ascii) : list ascii :=
  match rl with
  | [] => []
  | c :: rl' => if is_sep c then strip_seps rl' else rl
  end.

Fixpoint take_elem (rl : list ascii) : list ascii :=
  match rl with
  | [] => []
  | c :: rl' => if is_sep c then [] else c :: take_elem rl'
  end.

(** [filepath.Base]: the last element of the path; trailing
    separators are removed first; ["."] for the empty path and ["/"]
    for a path of separators only. *)
Definition Base (path : string) : string :=
  match list_ascii_of_string path with
  | [] => "."
  | l =>
    match rev (take_elem (strip_seps (rev l))) with
    | [] => "/"
    | r => string_of_list_ascii r
    end
  end.

End filepath.

(** ** Errors and results *)

(** The errors that reach the caller of the command. *)
Inductive error : Type :=
| ErrNotExist                      (* os.Stat: no such file, os.IsNotExist holds *)
| ErrStat                          (* os.Stat: any other failure *)
| ErrNodeFromFileInfo              (* restic.NodeFromFileInfo failed *)
| ErrDuplicate (name : string)     (* Tree.Insert: a node of this name is present *)
| ErrBuilder                       (* TreeJSONBuilder.AddNode or Finalize failed *)
| ErrStorage                       (* the repository could not read or write *)
| ErrConfig                        (* pattern file unreadable or pattern invalid *)
| ErrNoSnapshot                    (* FindLatest found no snapshot *)
| ErrLock                          (* the repository could not be opened or locked *)
| ErrFatal (msg : string).         (* errors.Fatal(msg) *)

(** A Go result [(v, err)]. *)
Inductive result (A : Type) : Type :=
| Ok (a : A)
| Err (e : error).

Arguments Ok {A} a.
Arguments Err {A} e.

Definition bindR {A B : Type} (r : result A) (k : A -> result B) : result B :=
  match r with
  | Ok a => k a
  | Err e => Err e
  end.

Notation "'let*' p ':=' r 'in' k" := (bindR r (fun p => k))
  (at level 10, p pattern, r at level 100, k at level 200).

(** [os.IsNotExist(err)] on the error of a result. *)
Definition IsNotExist {A : Type} (r : result A) : bool :=
  match r with
  | Err ErrNotExist => true
  | _ => false
  end.

(** ** Data model *)

(** [restic.ID], a 32-byte hash, by its value. *)
Definition ID : Type := N.

(** [restic.ID{}], all bytes zero. *)
Definition ID_zero : ID := 0%N.

Definition bytes : Type := list Byte.byte.

(** [restic.Node], restricted to the fields that identify an entry and
    describe it; [Subtree] is a pointer in the source. *)
Record Node : Type := mkNode {
  Name : string;
  NodeType : string;               (* the field Type: "file", "dir", "symlink", ... *)
  Mode : N;
  ModTime : Z;
  Size : N;
  Content : list ID;
  Subtree : option ID
}.

(** [node.Subtree = &newID]. *)
Definition set_Subtree (node : Node) (newID : ID) : Node :=
  {| Name := Name node; NodeType := NodeType node; Mode := Mode node;
     ModTime := ModTime node; Size := Size node; Content := Content node;
     Subtree := Some newID |}.

(** [restic.Tree]. *)
Record Tree : Type := mkTree { Nodes : list Node }.

(** The invariant of a tree: the nodes ascend strictly by name. *)
Definition name_lt (a b : Node) : Prop := String.ltb (Name a) (Name b) = true.

Definition strictly_sorted (nodes : list Node) : Prop := StronglySorted name_lt nodes.

(** [restic.NewTree(capacity)]; the capacity is only an allocation hint. *)
Definition NewTree (capacity : nat) : Tree := {| Nodes := [] |}.

(** Modelled from the spec: [Tree.Insert] of the Tree container, which
    is not among the sources.  "inserts preserving sort order; fails
    with DuplicateEntry if a node of the same name already exists". *)
Fixpoint insert_node (node : Node) (nodes : list Node) : result (list Node) :=
  match nodes with
  | [] => Ok [node]
  | n :: rest =>
    if String.ltb (Name node) (Name n) then Ok (node :: n :: rest)
    else if String.eqb (Name node) (Name n) then Err (ErrDuplicate (Name node))
    else let* rest' := insert_node node rest in Ok (n :: rest')
  end.

Definition Tree_Insert (tree : Tree) (node : Node) : result Tree :=
  let* nodes := insert_node node (Nodes tree) in Ok {| Nodes := nodes |}.

(** What [os.Stat] reports about a path. *)
Record FileInfo : Type := mkFileInfo {
  fi_type : string;
  fi_mode : N;
  fi_modtime : Z;
  fi_size : N;
  fi_extra_ok : bool               (* whether the extended metadata can be read *)
}.

Inductive StatResult : Type :=
| StatInfo (fi : FileInfo)
| StatNotExist
| StatFailure.

(** The calls made on the repository. *)
Inductive StorageOp : Type :=
| OpLoadTree (id : ID)
| OpSaveTree (t : Tree)
| OpSaveUnpacked (b : bytes).

(** The repository: the tree objects by identifier, the files written
    by [SaveUnpacked], and the journal of all calls, latest last. *)
Record Repository : Type := mkRepository {
  trees : gmap ID Tree;
  packs : list bytes;
  journal : list StorageOp
}.

Definition log_op (op : StorageOp) (repo : Repository) : Repository :=
  {| trees := trees repo; packs := packs repo; journal := journal repo ++ [op] |}.

(** A computation on the repository that may fail; [None] is the
    recursion bound of [makeTree] being reached, it is no outcome of
    the program. *)
Definition M (A : Type) : Type := Repository -> option (Repository * result A).

Definition bindM {A B : Type} (m : M A) (k : A -> M B) : M B :=
  fun repo =>
    match m repo with
    | Some (repo', Ok a) => k a repo'
    | Some (repo', Err e) => Some (repo', Err e)
    | None => None
    end.

Definition retM {A : Type} (a : A) : M A := fun repo => Some (repo, Ok a).

(** A step that does not touch the repository. *)
Definition pure {A : Type} (r : result A) : M A := fun repo => Some (repo, r).

Definition out_of_fuel {A : Type} : M A := fun _ => None.

Notation "'do*' p '<-' m ';' k" := (bindM m (fun p => k))
  (at level 10, p pattern, m at level 100, k at level 200).

(** ** The command *)

Section Incremental.

(** The file system at the time of the run. *)
Variable fs : string -> StatResult.

(** [restic.TreeJSONBuilder]: its internals are not among the
    sources; the command only creates one, adds nodes and finalizes. *)
Variable TreeJSONBuilder : Type.
Variable NewTreeJSONBuilder : TreeJSONBuilder.
Variable AddNode : TreeJSONBuilder -> Node -> result TreeJSONBuilder.
Variable Finalize : TreeJSONBuilder -> result bytes.

(** The identifier of a tree: the hash of its serialization. *)
Variable hashTree : Tree -> ID.

(** Whether the storage call number [n] of the run fails (backend or
    network failure). *)
Variable io_fault : nat -> bool.

(** [os.Stat]. *)
Definition os_Stat (path : string) : result FileInfo :=
  match fs path with
  | StatInfo fi => Ok fi
  | StatNotExist => Err ErrNotExist
  | StatFailure => Err ErrStat
  end.

(** Modelled from the spec: [restic.NodeFromFileInfo], the "stat-to-node
    conversion" of the filesystem metadata collaborator, which is not
    among the sources.  The node is named after the last element of
    the path and describes what [os.Stat] saw; a fresh node carries no
    subtree and no content. *)
Definition fresh_node (path : string) (fi : FileInfo) : Node :=
  {| Name := filepath.Base path; NodeType := fi_type fi; Mode := fi_mode fi;
     ModTime := fi_modtime fi; Size := fi_size fi; Content := [];
     Subtree := None |}.

Definition NodeFromFileInfo (path : string) (fi : FileInfo) : result Node :=
  if fi_extra_ok fi then Ok (fresh_node path fi) else Err ErrNodeFromFileInfo.

(** Modelled from the spec: [restic.LoadTree], "loadTree(id) -> Tree"
    of the repository storage layer, which is not among the sources. *)
Definition LoadTree (id : ID) : M Tree :=
  fun repo =>
    let repo' := log_op (OpLoadTree id) repo in
    if io_fault (length (journal repo)) then Some (repo', Err ErrStorage)
    else match trees repo !! id with
         | Some t => Some (repo', Ok t)
         | None => Some (repo', Err ErrStorage)
         end.

(** Modelled from the spec: [restic.SaveTree], "saveTree(Tree) ->
    Identifier" of the repository storage layer, which is not among
    the sources.  The identifier is the content hash; an object whose
    identifier is already stored is not written again (deduplication). *)
Definition SaveTree (t : Tree) : M ID :=
  fun repo =>
    let repo' := log_op (OpSaveTree t) repo in
    if io_fault (length (journal repo)) then Some (repo', Err ErrStorage)
    else
      let id := hashTree t in
      match trees repo !! id with
      | Some _ => Some (repo', Ok id)
      | None => Some ({| trees := <[id := t]> (trees repo); packs := packs repo';
                         journal := journal repo' |}, Ok id)
      end.

(** Modelled from the spec: [repo.SaveUnpacked(ctx, backend.PackFile, buf)],
    "saveEncodedBlob(kind, bytes)" of the repository storage layer,
    which is not among the sources.  The file is added to the
    repository; [makeTree] discards the identifier it returns. *)
Definition SaveUnpacked (buf : bytes) : M unit :=
  fun repo =>
    let repo' := log_op (OpSaveUnpacked buf) repo in
    if io_fault (length (journal repo)) then Some (repo', Err ErrStorage)
    else Some ({| trees := trees repo'; packs := packs repo' ++ [buf];
                  journal := journal repo' |}, Ok tt).

(** [addNode] (cmd_incremental.go, lines 60-79). *)
Definition addNode (path : string) (tb : TreeJSONBuilder) (tree : Tree)
  : result (TreeJSONBuilder * Tree) :=
  let* fileInfo := os_Stat path in
  let* newNode := NodeFromFileInfo path fileInfo in
  let* tree' := Tree_Insert tree newNode in
  let* tb' := AddNode tb newNode in
  Ok (tb', tree').

(** The state of the loops of [makeTree]: the slice [includePaths]
    with the parallel slice [remove], the builder and the new tree. *)
Definition marks : Type := list (string * bool).

(** Lines 95-102: a path that does not begin with [dir] is marked. *)
Definition initial_marks (dir : string) (includePaths : list string) : marks :=
  map (fun path => (path, negb (GoStrings.HasPrefix path dir))) includePaths.

(** Lines 160-166: the unmarked paths, sorted. *)
Definition unmarked (ps : marks) : list string :=
  map fst (List.filter (fun e => negb (snd e)) ps).

Definition make_keys (ps : marks) : list string := GoStrings.Strings (unmarked ps).

(** Whether the path lies in the directory of the node and sorts
    before it (line 130, second disjunct). *)
Definition sorts_before (dir : string) (node : Node) (path : string) : bool :=
  String.eqb (filepath.Dir (dir ++ Name node)) (filepath.Dir path)
  && String.ltb (filepath.Base path) (Name node).

(** The inner loop, lines 107-141, for one node of the old tree.  It
    yields the marks, [skipNode], the builder and the tree. *)
Fixpoint scanPaths (dir : string) (node : Node) (ps : marks) (skipNode : bool)
         (tb : TreeJSONBuilder) (tree : Tree)
  : result (marks * bool * TreeJSONBuilder * Tree) :=
  match ps with
  | [] => Ok ([], skipNode, tb, tree)
  | (path, rm) :: ps' =>
    if rm then
      let* (ps'', s, tb', tree') := scanPaths dir node ps' skipNode tb tree in
      Ok ((path, rm) :: ps'', s, tb', tree')
    else if String.eqb path "" then
      let* (ps'', s, tb', tree') := scanPaths dir node ps' skipNode tb tree in
      Ok ((path, rm) :: ps'', s, tb', tree')
    else
      let hit := String.eqb (dir ++ Name node) path in
      let skipNode1 := if hit then true else skipNode in
      if hit && IsNotExist (os_Stat path) then
        let* (ps'', s, tb', tree') := scanPaths dir node ps' skipNode1 tb tree in
        Ok ((path, rm) :: ps'', s, tb', tree')
      else if skipNode1 || sorts_before dir node path then
        let* (tb1, tree1) := addNode path tb tree in
        let* (ps'', s, tb', tree') := scanPaths dir node ps' skipNode1 tb1 tree1 in
        Ok ((path, true) :: ps'', s, tb', tree')
      else
        let* (ps'', s, tb', tree') := scanPaths dir node ps' skipNode1 tb tree in
        Ok ((path, rm) :: ps'', s, tb', tree')
  end.

(** Lines 184-194: on the last node, the remaining paths of the
    directory are added at the end. *)
Fixpoint appendRemaining (dir : string) (node : Node) (keys : list string)
         (tb : TreeJSONBuilder) (tree : Tree) : result (TreeJSONBuilder * Tree) :=
  match keys with
  | [] => Ok (tb, tree)
  | path :: keys' =>
    if String.eqb (filepath.Dir (dir ++ Name node)) (filepath.Dir path) then
      let* (tb', tree') := addNode path tb tree in
      appendRemaining dir node keys' tb' tree'
    else appendRemaining dir node keys' tb tree
  end.

(** The loop over the nodes of the old tree, lines 104-197; [rec] is
    the recursive call of [makeTree]. *)
Fixpoint rangeNodes (rec : ID -> string -> list string -> M ID) (dir : string)
         (nodes : list Node) (ps : marks) (tb : TreeJSONBuilder) (tree : Tree)
  : M (TreeJSONBuilder * Tree) :=
  match nodes with
  | [] => retM (tb, tree)
  | node :: rest =>
    do* (ps1, skipNode, tb1, tree1) <- pure (scanPaths dir node ps false tb tree);
    if skipNode then rangeNodes rec dir rest ps1 tb1 tree1
    else if negb (String.eqb (NodeType node) "dir") then
      do* tree2 <- pure (Tree_Insert tree1 node);
      do* tb2 <- pure (AddNode tb1 node);
      rangeNodes rec dir rest ps1 tb2 tree2
    else
      let subtree := match Subtree node with Some id => id | None => ID_zero end in
      let keys := make_keys ps1 in
      do* newID <- rec subtree (dir ++ Name node ++ "/")%string keys;
      let node' := set_Subtree node newID in
      do* tree2 <- pure (Tree_Insert tree1 node');
      do* tb2 <- pure (AddNode tb1 node');
      do* (tb3, tree3) <- pure (match rest with
                                 | [] => appendRemaining dir node keys tb2 tree2
                                 | _ :: _ => Ok (tb2, tree2)
                                 end);
      rangeNodes rec dir rest ps1 tb3 tree3
  end.

(** [makeTree] (cmd_incremental.go, lines 81-216).  [fuel] bounds the
    depth of the recursion. *)
Fixpoint makeTree (fuel : nat) (nodeID : ID) (dir : string) (includePaths : list string)
  : M ID :=
  match includePaths with
  | [] => retM nodeID
  | _ :: _ =>
    match fuel with
    | O => out_of_fuel
    | S fuel' =>
      do* curTree <- LoadTree nodeID;
      let tb := NewTreeJSONBuilder in
      let tree := NewTree (length (Nodes curTree) + length includePaths) in
      let remove := initial_marks dir includePaths in
      do* (tb', tree') <- rangeNodes (makeTree fuel') dir (Nodes curTree) remove tb tree;
      do* treeJSON <- pure (Finalize tb');
      do* id <- SaveTree tree';
      do* _ <- SaveUnpacked treeJSON;
      retM id
    end
  end.

(** All paths are marked: none is left for this directory. *)
Definition all_marked (ps : marks) : Prop := Forall (fun e => snd e = true) ps.

(** The node as it is copied when nothing is left to change: a
    directory gets the identifier of its subtree again, the zero
    identifier when it had none. *)
Definition carry (node : Node) : Node :=
  if String.eqb (NodeType node) "dir"
  then set_Subtree node (match Subtree node with Some id => id | None => ID_zero end)
  else node.

(** [ps'] is [ps] without some of its marked entries. *)
Inductive thinned : marks -> marks -> Prop :=
| thinned_nil : thinned [] []
| thinned_keep e ps ps' : thinned ps ps' -> thinned (e :: ps) (e :: ps')
| thinned_drop path ps ps' : thinned ps ps' -> thinned ((path, true) :: ps) ps'.

(** The change-paths without the empty strings. *)
Definition drop_blank (includePaths : list string) : list string :=
  List.filter (fun path => negb (String.eqb path "")) includePaths.

(** One call on the repository of the kinds [makeTree] makes, where
    a tree that is saved is strictly sorted. *)
Inductive storage_step : Repository -> Repository -> Prop :=
| step_load id repo repo' r :
    LoadTree id repo = Some (repo', r) -> storage_step repo repo'
| step_save t repo repo' r :
    strictly_sorted (Nodes t) ->
    SaveTree t repo = Some (repo', r) -> storage_step repo repo'
| step_unpacked buf repo repo' r :
    SaveUnpacked buf repo = Some (repo', r) -> storage_step repo repo'.

(** A sequence of such calls. *)
Definition storage_run : Repository -> Repository -> Prop := rtc storage_step.

(** The longest change-path; no directory deeper than that is ever
    entered with a path left to handle. *)
Definition max_length (paths : list string) : nat :=
  fold_right (fun path m => Nat.max (String.length path) m) 0 paths.

(** The unmarked paths are at least as long as [dir] and no longer
    than [bound]. *)
Definition marks_within (dir : string) (bound : nat) (ps : marks) : Prop :=
  forall path, In (path, false) ps ->
               String.length dir <= String.length path <= bound.

(** A recursion depth that suffices for [makeTree] on these inputs. *)
Definition enough_fuel (dir : string) (includePaths : list string) : nat :=
  S (S (max_length includePaths) - String.length dir).

(** Lines 146-153 and 174-181, node after node: each node is inserted
    into the new tree and then added to the builder. *)
Fixpoint copyNodes (nodes : list Node) (tb : TreeJSONBuilder) (tree : Tree)
  : result (TreeJSONBuilder * Tree) :=
  match nodes with
  | [] => Ok (tb, tree)
  | node :: rest =>
    let* tree' := Tree_Insert tree node in
    let* tb' := AddNode tb node in
    copyNodes rest tb' tree'
  end.

(** The path neither names the node (line 117) nor lies in its
    directory and sorts before it (line 130). *)
Definition passes (dir : string) (node : Node) (path : string) : bool :=
  negb (String.eqb (dir ++ Name node) path) && negb (sorts_before dir node path).

(** The node is no directory and every unmarked, non-blank path passes it. *)
Definition plain_node (dir : string) (ps : marks) (node : Node) : Prop :=
  NodeType node <> "dir" /\
  forall path, In (path, false) ps -> path <> "" -> passes dir node path = true.

(** Lines 198-215: the builder is finalized, the tree saved, then the
    encoded form. *)
Definition saveNew (tb : TreeJSONBuilder) (tree : Tree) : M ID :=
  do* treeJSON <- pure (Finalize tb);
  do* id <- SaveTree tree;
  do* _ <- SaveUnpacked treeJSON;
  retM id.

(** A directory entry refers to a subtree. *)
Definition has_subtree (node : Node) : Prop :=
  NodeType node = "dir" -> Subtree node <> None.

End Incremental.

(** ** include.go *)

Record includePatternOptions : Type := mkIncludePatternOptions {
  Includes : list string;
  InsensitiveIncludes : list string;
  IncludeFiles : list string;
  InsensitiveIncludeFiles : list string
}.

(** [includePatternOptions.Empty] (include.go, lines 134-136). *)
Definition Empty (opts : includePatternOptions) : bool :=
  Nat.eqb (length (Includes opts)) 0 && Nat.eqb (length (InsensitiveIncludes opts)) 0
  && Nat.eqb (length (IncludeFiles opts)) 0
  && Nat.eqb (length (InsensitiveIncludeFiles opts)) 0.

Section Patterns.

(** [readPatternsFromFiles] and [filter.ValidatePatterns] are not
    among the sources; the second yields [true] for valid patterns. *)
Variable readPatternsFromFiles : list string -> result (list string).
Variable ValidatePatterns : list string -> bool.

(** [includePatternOptions.GetPathsFromPatterns] (include.go, lines
    102-132). *)
Definition GetPathsFromPatterns (opts : includePatternOptions) : result (list string) :=
  let* includes :=
    (if Nat.ltb 0 (length (IncludeFiles opts)) then
       let* includePatterns := readPatternsFromFiles (IncludeFiles opts) in
       if ValidatePatterns includePatterns
       then Ok (Includes opts ++ includePatterns)
       else Err (ErrFatal "--include-file")
     else Ok (Includes opts)) in
  let* insensitive :=
    (if Nat.ltb 0 (length (InsensitiveIncludeFiles opts)) then
       let* includes' := readPatternsFromFiles (InsensitiveIncludeFiles opts) in
       if ValidatePatterns includes'
       then Ok (InsensitiveIncludes opts ++ includes')
       else Err (ErrFatal "--iinclude-file")
     else Ok (InsensitiveIncludes opts)) in
  Ok (includes ++ insensitive).

End Patterns.

Section Matchers.

Variable readPatternsFromFiles : list string -> result (list string).
Variable ValidatePatterns : list string -> bool.

(** [strings.ToLower]. *)
Variable ToLower : string -> string.

(** [filter.ParsePatterns] followed by [filter.ListWithChild], which
    are not among the sources: whether the item matches and whether a
    child of it may; an error is only logged by the caller. *)
Variable ListWithChild : list string -> string -> bool * bool.

(** [IncludeByNameFunc]. *)
Definition IncludeByNameFunc : Type := string -> bool * bool.

(** [includeByPattern] (include.go, lines 77-87). *)
Definition includeByPattern (patterns : list string) : IncludeByNameFunc :=
  fun item => ListWithChild patterns item.

(** [includeByInsensitivePattern] (include.go, lines 91-100): the
    patterns are lowered first, then every item. *)
Definition includeByInsensitivePattern (patterns : list string) : IncludeByNameFunc :=
  let patterns := map ToLower patterns in
  let includeFunc := includeByPattern patterns in
  fun item => includeFunc (ToLower item).

(** [includePatternOptions.CollectPatterns] (include.go, lines 29-73). *)
Definition CollectPatterns (opts : includePatternOptions)
  : result (list IncludeByNameFunc) :=
  let* includes :=
    (if Nat.ltb 0 (length (IncludeFiles opts)) then
       let* includePatterns := readPatternsFromFiles (IncludeFiles opts) in
       if ValidatePatterns includePatterns
       then Ok (Includes opts ++ includePatterns)
       else Err (ErrFatal "--include-file")
     else Ok (Includes opts)) in
  let* insensitive :=
    (if Nat.ltb 0 (length (InsensitiveIncludeFiles opts)) then
       let* includePatterns := readPatternsFromFiles (InsensitiveIncludeFiles opts) in
       if ValidatePatterns includePatterns
       then Ok (InsensitiveIncludes opts ++ includePatterns)
       else Err (ErrFatal "--iinclude-file")
     else Ok (InsensitiveIncludes opts)) in
  let* fs1 :=
    (if Nat.ltb 0 (length insensitive) then
       if ValidatePatterns insensitive
       then Ok [includeByInsensitivePattern insensitive]
       else Err (ErrFatal "--iinclude")
     else Ok []) in
  let* fs2 :=
    (if Nat.ltb 0 (length includes) then
       if ValidatePatterns includes
       then Ok (fs1 ++ [includeByPattern includes])
       else Err (ErrFatal "--include")
     else Ok fs1) in
  Ok fs2.

End Matchers.

(** ** The command as a whole *)

(** [restic.Snapshot], the fields the command copies. *)
Record Snapshot : Type := mkSnapshot {
  Paths : list string;
  Tags : list string;
  Hostname : string;
  SnapshotTime : Z;
  SnapshotTree : ID
}.

(** [newSnapshot.Tree = &treeID] (line 278). *)
Definition set_SnapshotTree (sn : Snapshot) (treeID : ID) : Snapshot :=
  {| Paths := Paths sn; Tags := Tags sn; Hostname := Hostname sn;
     SnapshotTime := SnapshotTime sn; SnapshotTree := treeID |}.

(** What the command does to its surroundings, in order. *)
Inductive Event : Type :=
| EvOpenWithAppendLock
| EvUnlock
| EvLoadIndex
| EvFindLatest
| EvStartPackUploader
| EvFlush
| EvSaveSnapshot (sn : Snapshot).

Record World : Type := mkWorld {
  w_repo : Repository;
  w_events : list Event
}.

Definition emit (ev : Event) (w : World) : World :=
  {| w_repo := w_repo w; w_events := w_events w ++ [ev] |}.

Section Command.

Variable fs : string -> StatResult.
Variable TreeJSONBuilder : Type.
Variable NewTreeJSONBuilder : TreeJSONBuilder.
Variable AddNode : TreeJSONBuilder -> Node -> result TreeJSONBuilder.
Variable Finalize : TreeJSONBuilder -> result bytes.
Variable hashTree : Tree -> ID.
Variable io_fault : nat -> bool.
Variable readPatternsFromFiles : list string -> result (list string).
Variable ValidatePatterns : list string -> bool.

(** [snapshotMetadataArgs] and its method [empty] are not among the
    sources. *)
Variable snapshotMetadataArgs : Type.
Variable metadata_empty : snapshotMetadataArgs -> bool.

(** The outcomes of the collaborators: opening and locking the
    repository, loading the index, finding the latest snapshot,
    flushing, the clock, making the new snapshot, and saving it. *)
Variable open_result : result unit.
Variable index_result : result unit.
Variable latest : result Snapshot.
Variable flush_result : result unit.
Variable now : Z.
Variable new_snapshot_error : option error.
Variable save_snapshot_result : result ID.

(** [restic.NewSnapshot] is not among the sources; by the spec it makes
    a snapshot with the descriptive fields it is given and no tree yet.
    It may fail. *)
Definition NewSnapshot (paths tags : list string) (hostname : string) (time : Z)
  : result Snapshot :=
  match new_snapshot_error with
  | Some e => Err e
  | None => Ok {| Paths := paths; Tags := tags; Hostname := hostname;
                  SnapshotTime := time; SnapshotTree := ID_zero |}
  end.

(** [IncrementalOptions]; the snapshot filter only feeds [FindLatest]. *)
Record IncrementalOptions : Type := mkIncrementalOptions {
  Metadata : snapshotMetadataArgs;
  include_options : includePatternOptions
}.

(** Lines 235-286 of [runIncremental], run while the lock is held. *)
Definition runLocked (opts : IncrementalOptions) (w : World) : option (World * result unit) :=
  let w := emit EvLoadIndex w in
  match index_result with
  | Err e => Some (w, Err e)
  | Ok _ =>
    let w := emit EvFindLatest w in
    match latest with
    | Err e => Some (w, Err e)
    | Ok sn =>
      let w := emit EvStartPackUploader w in
      match GetPathsFromPatterns readPatternsFromFiles ValidatePatterns
              (include_options opts) with
      | Err e => Some (w, Err e)
      | Ok includePaths =>
        let includePaths := GoStrings.Strings includePaths in
        match makeTree fs TreeJSONBuilder NewTreeJSONBuilder AddNode Finalize hashTree
                io_fault (enough_fuel "/" includePaths) (SnapshotTree sn) "/"
                includePaths (w_repo w) with
        | None => None
        | Some (repo, Err e) => Some ({| w_repo := repo; w_events := w_events w |}, Err e)
        | Some (repo, Ok treeID) =>
          let w := emit EvFlush {| w_repo := repo; w_events := w_events w |} in
          match flush_result with
          | Err e => Some (w, Err e)
          | Ok _ =>
            match NewSnapshot (Paths sn) (Tags sn) (Hostname sn) now with
            | Err e => Some (w, Err e)
            | Ok newSnapshot =>
              let newSnapshot := set_SnapshotTree newSnapshot treeID in
              let w := emit (EvSaveSnapshot newSnapshot) w in
              match save_snapshot_result with
              | Err e => Some (w, Err e)
              | Ok _ => Some (w, Ok tt)
              end
            end
          end
        end
      end
    end
  end.

(** [runIncremental] (cmd_incremental.go, lines 218-287); the
    deferred [unlock] runs on every way out once the lock is held. *)
Definition runIncremental (opts : IncrementalOptions) (w : World)
  : option (World * result unit) :=
  if Empty (include_options opts) && metadata_empty (Metadata opts) then
    Some (w, Err (ErrFatal "Nothing to do: no includes provided and no new metadata provided"))
  else
    let w := emit EvOpenWithAppendLock w in
    match open_result with
    | Err e => Some (w, Err e)
    | Ok _ =>
      match runLocked opts w with
      | Some (w', r) => Some (emit EvUnlock w', r)
      | None => None
      end
    end.

End Command.

(** ** A small repository to run the command on *)

Module Scenario.

(** Modelled from the spec: the "auxiliary incremental builder" of
    the Tree container, which "accumulates the same node sequence
    while it is being assembled and can finalize it"; here it keeps
    the nodes in the order they were added and encodes their names. *)
Definition ListBuilder : Type := list Node.

Definition list_AddNode (tb : ListBuilder) (node : Node) : result ListBuilder :=
  Ok (tb ++ [node]).

Definition list_Finalize (tb : ListBuilder) : result bytes :=
  Ok (concat (map (fun n => list_byte_of_string (Name n) ++ [Byte.x0a]) tb)).

(** A stand-in for the content hash: a positional code of the names,
    types, sizes and subtrees of the nodes. *)
Definition code_of_string (s : string) : N :=
  fold_left (fun acc c => (acc * 257 + N_of_ascii c + 1)%N) (list_ascii_of_string s) 0%N.

Definition code_of_node (n : Node) : N :=
  (code_of_string (Name n) * 1000003 + code_of_string (NodeType n) * 10007
   + Size n * 101
   + match Subtree n with Some id => 2 * id + 1 | None => 0 end)%N.

Definition code_of_tree (t : Tree) : ID :=
  fold_left (fun acc n => (acc * 1000000007 + code_of_node n + 1)%N) (Nodes t) 7%N.

Definition no_fault (n : nat) : bool := false.

Definition file (name : string) (size : N) : Node :=
  {| Name := name; NodeType := "file"; Mode := 420; ModTime := 0; Size := size;
     Content := []; Subtree := None |}.

Definition directory (name : string) (subtree : option ID) : Node :=
  {| Name := name; NodeType := "dir"; Mode := 493; ModTime := 0; Size := 0;
     Content := []; Subtree := subtree |}.

Definition empty_repo : Repository := {| trees := ∅; packs := []; journal := [] |}.

(** The repository with the tree stored under its identifier. *)
Definition put (t : Tree) (repo : Repository) : Repository :=
  {| trees := <[code_of_tree t := t]> (trees repo); packs := packs repo;
     journal := journal repo |}.

Definition regular_info (size : N) : FileInfo :=
  {| fi_type := "file"; fi_mode := 420; fi_modtime := 5; fi_size := size;
     fi_extra_ok := true |}.

Definition regular (size : N) : StatResult := StatInfo (regular_info size).

(** A file system that holds exactly one regular file. *)
Definition only (path : string) (p : string) : StatResult :=
  if String.eqb p path then regular 9 else StatNotExist.

Definition directory_info : FileInfo :=
  {| fi_type := "dir"; fi_mode := 493; fi_modtime := 5; fi_size := 0;
     fi_extra_ok := true |}.

(** A file system that holds exactly one directory. *)
Definition only_dir (path : string) (p : string) : StatResult :=
  if String.eqb p path then StatInfo directory_info else StatNotExist.

(** The empty file system. *)
Definition nothing (p : string) : StatResult := StatNotExist.

(** [makeTree] on this repository model. *)
Definition merge (fs : string -> StatResult) (fuel : nat) (nodeID : ID) (dir : string)
           (includePaths : list string) : M ID :=
  makeTree fs ListBuilder [] list_AddNode list_Finalize code_of_tree no_fault
           fuel nodeID dir includePaths.

Definition tree_a_b : Tree := mkTree [file "a" 1; file "b" 2].
Definition tree_b : Tree := mkTree [file "b" 2].
Definition tree_b_d : Tree := mkTree [file "b" 1; file "d" 2].
Definition tree_empty : Tree := mkTree [].
Definition tree_f : Tree := mkTree [file "f" 1].
Definition tree_x : Tree := mkTree [file "x" 1].

(** A root with two directories, [a] holding [f] and [b] holding [x]. *)
Definition tree_root : Tree :=
  mkTree [directory "a" (Some (code_of_tree tree_f));
          directory "b" (Some (code_of_tree tree_x))].

Definition repo_root : Repository := put tree_f (put tree_x (put tree_root empty_repo)).

Definition tree_e : Tree := mkTree [file "e" 1].

(** A root with one directory whose tree is empty. *)
Definition tree_sub : Tree := mkTree [directory "b" (Some (code_of_tree tree_empty))].

(** The storage calls made and the result. *)
Definition outcome (x : option (Repository * result ID))
  : option (list StorageOp * result ID) :=
  option_map (fun x => (journal (fst x), snd x)) x.

Definition newline (name : string) : bytes := list_byte_of_string name ++ [Byte.x0a].



Definition snapshot0 : Snapshot :=
  {| Paths := ["/"]; Tags := []; Hostname := "host"; SnapshotTime := 0;
     SnapshotTree := code_of_tree tree_b |}.

Definition world0 : World := {| w_repo := put tree_b empty_repo; w_events := [] |}.

(** [runIncremental] with collaborators that all succeed. *)
Definition run (opts : IncrementalOptions bool) (w : World) : option (World * result unit) :=
  runIncremental nothing ListBuilder [] list_AddNode list_Finalize code_of_tree no_fault
                 (fun _ => Ok []) (fun _ => true) bool (fun m => m)
                 (Ok tt) (Ok tt) (Ok snapshot0) (Ok tt) 1 None (Ok 0%N) opts w.




(** The repository a merge leaves. *)
Definition after (x : option (Repository * result ID)) : Repository :=
  match x with
  | Some (repo, _) => repo
  | None => empty_repo
  end.

(** A command line with one include, and one with an include file only. *)
Definition one_include : IncrementalOptions bool :=
  {| Metadata := true;
     include_options := {| Includes := ["/c"]; InsensitiveIncludes := [];
                           IncludeFiles := []; InsensitiveIncludeFiles := [] |} |}.

Definition file_only : IncrementalOptions bool :=
  {| Metadata := true;
     include_options := {| Includes := []; InsensitiveIncludes := [];
                           IncludeFiles := ["patterns.txt"];
                           InsensitiveIncludeFiles := [] |} |}.

Definition world_after (x : option (World * result unit)) : World :=
  match x with
  | Some (w, _) => w
  | None => world0
  end.

(** Include options of all four kinds, pattern files that hold the
    one pattern /c, and a matcher that compares for equality. *)
Definition mixed_includes : includePatternOptions :=
  {| Includes := ["/a"]; InsensitiveIncludes := ["/B"];
     IncludeFiles := ["patterns.txt"]; InsensitiveIncludeFiles := [] |}.

Definition read_c (files : list string) : result (list string) := Ok ["/c"].

Definition all_valid (patterns : list string) : bool := true.

Definition same_case (s : string) : string := s.

Definition listed (patterns : list string) (item : string) : bool * bool :=
  (existsb (String.eqb item) patterns, false).

End Scenario.

(** ** Properties *)

(** The nodes of a concrete list are no directories and let the
    concrete change-paths pass. *)
Ltac plain_nodes :=
  repeat constructor; try discriminate;
  intros ? Hin ?; simpl in Hin;
  repeat (destruct Hin as [Hin|Hin]; [inversion Hin; subst; vm_compute; reflexivity|]);
  destruct Hin.

(** Destructs the scrutinee of a match in the hypothesis or the goal. *)
Ltac destr_in H :=
  match type of H with
  | context [match ?x with _ => _ end] => destruct x eqn:?
  end.

(** Replaces the closed conditions of the goal by their values. *)
Ltac eval_conds :=
  repeat match goal with
         | |- context [if ?c then _ else _] =>
           let v := eval vm_compute in c in
           match v with
           | true => change c with true
           | false => change c with false
           end; cbv iota
         end.

Ltac destr_goal :=
  match goal with
  | |- context [match ?x with _ => _ end] => destruct x eqn:?
  end.

Section StringOrder.

Lemma ltb_lt (a b : string) :
  String.ltb a b = true <-> OrderedTypeEx.String_as_OT.lt a b.
Proof.
  unfold String.ltb. rewrite <- OrderedTypeEx.String_as_OT.cmp_lt.
  unfold OrderedTypeEx.String_as_OT.cmp.
  destruct (String.compare a b); split; congruence.
Qed.

Lemma ltb_irrefl (a : string) : String.ltb a a = false.
Proof.
  unfold String.ltb.
  assert (H : String.compare a a = Eq)
    by (apply OrderedTypeEx.String_as_OT.cmp_eq; reflexivity).
  rewrite H. reflexivity.
Qed.

Lemma ltb_trans (a b c : string) :
  String.ltb a b = true -> String.ltb b c = true -> String.ltb a c = true.
Proof.
  rewrite !ltb_lt. apply OrderedTypeEx.String_as_OT.lt_trans.
Qed.

Lemma ltb_total (a b : string) :
  String.ltb a b = false -> String.eqb a b = false -> String.ltb b a = true.
Proof.
  unfold String.ltb. rewrite (String.compare_antisym b a).
  destruct (String.compare a b) eqn:E; simpl; try congruence.
  apply String.compare_eq_iff in E. subst. rewrite String.eqb_refl. congruence.
Qed.

Lemma ltb_neq (a b : string) : String.ltb a b = true -> a <> b.
Proof. intros H ->. rewrite ltb_irrefl in H. discriminate. Qed.

End StringOrder.

Section InsertSorted.

Lemma insert_node_In node nodes nodes' x :
  insert_node node nodes = Ok nodes' -> In x nodes' <-> x = node \/ In x nodes.
Proof.
  revert nodes'. induction nodes as [|n rest IH]; simpl; intros nodes' H.
  - inversion H; subst. simpl. intuition.
  - destruct (String.ltb (Name node) (Name n)).
    + inversion H; subst. simpl. intuition.
    + destruct (String.eqb (Name node) (Name n)); [discriminate|].
      destruct (insert_node node rest) as [rest'|] eqn:E; simpl in H; [|discriminate].
      inversion H; subst. simpl. rewrite (IH rest' eq_refl). intuition.
Qed.

Lemma insert_node_sorted node nodes nodes' :
  strictly_sorted nodes -> insert_node node nodes = Ok nodes' -> strictly_sorted nodes'.
Proof.
  unfold strictly_sorted. revert nodes'.
  induction nodes as [|n rest IH]; simpl; intros nodes' Hs H.
  - inversion H; subst. constructor; constructor.
  - destruct (String.ltb (Name node) (Name n)) eqn:Hlt.
    + inversion H; subst. constructor; [assumption|].
      constructor; [exact Hlt|].
      destruct (StronglySorted_inv Hs) as [_ Hall].
      rewrite List.Forall_forall in Hall. rewrite List.Forall_forall. intros a Ha.
      eapply ltb_trans; [exact Hlt|]. apply Hall. assumption.
    + destruct (String.eqb (Name node) (Name n)) eqn:Heq; [discriminate|].
      destruct (insert_node node rest) as [rest'|] eqn:E; simpl in H; [|discriminate].
      inversion H; subst. apply StronglySorted_inv in Hs. destruct Hs as [Hs Hall].
      constructor; [eapply IH; eauto|].
      rewrite List.Forall_forall. intros x Hx.
      apply (insert_node_In _ _ _ x E) in Hx. destruct Hx as [->|Hx].
      * unfold name_lt. apply ltb_total; assumption.
      * rewrite List.Forall_forall in Hall. apply Hall. assumption.
Qed.

Lemma Tree_Insert_sorted tree node tree' :
  strictly_sorted (Nodes tree) -> Tree_Insert tree node = Ok tree' ->
  strictly_sorted (Nodes tree').
Proof.
  unfold Tree_Insert. intros Hs H.
  destruct (insert_node node (Nodes tree)) as [nodes|] eqn:E; simpl in H; [|discriminate].
  inversion H; subst. simpl. eapply insert_node_sorted; eauto.
Qed.

Lemma strictly_sorted_NoDup nodes :
  strictly_sorted nodes -> List.NoDup (map Name nodes).
Proof.
  induction 1 as [|n rest Hs IH Hall]; simpl; constructor; [|assumption].
  intros Hin. apply in_map_iff in Hin. destruct Hin as [x [Hx Hin]].
  rewrite List.Forall_forall in Hall. specialize (Hall x Hin).
  unfold name_lt in Hall. rewrite Hx in Hall. rewrite ltb_irrefl in Hall. discriminate.
Qed.

End InsertSorted.

Section Paths.

Lemma length_append (a b : string) :
  String.length (a ++ b) = String.length a + String.length b.
Proof. induction a as [|c a IH]; simpl; [reflexivity|]. rewrite IH. reflexivity. Qed.

Lemma HasPrefix_length (s prefix : string) :
  GoStrings.HasPrefix s prefix = true -> String.length prefix <= String.length s.
Proof.
  unfold GoStrings.HasPrefix. revert s.
  induction prefix as [|c prefix IH]; intros s H; simpl; [lia|].
  destruct s as [|c' s]; simpl in H; [discriminate|].
  destruct (ascii_dec c c'); [|discriminate].
  simpl. apply IH in H. lia.
Qed.

Lemma HasPrefix_empty (prefix : string) :
  prefix <> "" -> GoStrings.HasPrefix "" prefix = false.
Proof. destruct prefix; [congruence|reflexivity]. Qed.

Lemma max_length_ge (paths : list string) (path : string) :
  In path paths -> String.length path <= max_length paths.
Proof.
  induction paths as [|q paths IH]; simpl; [tauto|].
  intros [->|Hin]; [lia|]. apply IH in Hin. lia.
Qed.

Lemma max_length_le (paths : list string) (bound : nat) :
  (forall path, In path paths -> String.length path <= bound) ->
  max_length paths <= bound.
Proof.
  induction paths as [|q paths IH]; simpl; intros H; [lia|].
  assert (String.length q <= bound) by (apply H; left; reflexivity).
  assert (max_length paths <= bound) by (apply IH; intros; apply H; right; assumption).
  lia.
Qed.

Lemma insert_sorted_In (x y : string) (l : list string) :
  In y (GoStrings.insert_sorted x l) <-> y = x \/ In y l.
Proof.
  induction l as [|z l IH]; simpl; [intuition|].
  destruct (String.leb x z); simpl; [intuition|]. rewrite IH. intuition.
Qed.

Lemma Strings_In (y : string) (l : list string) :
  In y (GoStrings.Strings l) <-> In y l.
Proof.
  induction l as [|x l IH]; simpl; [tauto|].
  rewrite insert_sorted_In, IH. intuition.
Qed.

End Paths.

Section Merge.

Variable fs : string -> StatResult.
Variable TreeJSONBuilder : Type.
Variable NewTreeJSONBuilder : TreeJSONBuilder.
Variable AddNode : TreeJSONBuilder -> Node -> result TreeJSONBuilder.
Variable Finalize : TreeJSONBuilder -> result bytes.
Variable hashTree : Tree -> ID.
Variable io_fault : nat -> bool.

Local Abbreviation addNode := (addNode fs TreeJSONBuilder AddNode).
Local Abbreviation scanPaths := (scanPaths fs TreeJSONBuilder AddNode).
Local Abbreviation appendRemaining := (appendRemaining fs TreeJSONBuilder AddNode).
Local Abbreviation rangeNodes := (rangeNodes fs TreeJSONBuilder AddNode).
Local Abbreviation LoadTree := (LoadTree io_fault).
Local Abbreviation SaveTree := (SaveTree hashTree io_fault).
Local Abbreviation SaveUnpacked := (SaveUnpacked io_fault).
Local Abbreviation storage_step := (storage_step hashTree io_fault).
Local Abbreviation storage_run := (storage_run hashTree io_fault).
Local Abbreviation makeTree :=
  (makeTree fs TreeJSONBuilder NewTreeJSONBuilder AddNode Finalize hashTree io_fault).

(** *** The new tree stays sorted *)

Lemma addNode_sorted path tb tree tb' tree' :
  strictly_sorted (Nodes tree) -> addNode path tb tree = Ok (tb', tree') ->
  strictly_sorted (Nodes tree').
Proof.
  unfold addNode, bindR. intros Hs H.
  repeat destr_in H; try discriminate.
  inversion H; subst. eapply Tree_Insert_sorted; eauto.
Qed.

Lemma scanPaths_sorted dir node ps :
  forall skipNode tb tree ps' skipNode' tb' tree',
    strictly_sorted (Nodes tree) ->
    scanPaths dir node ps skipNode tb tree = Ok (ps', skipNode', tb', tree') ->
    strictly_sorted (Nodes tree').
Proof.
  induction ps as [|[path rm] ps IH]; simpl; intros skipNode tb tree ps' s' tb' tree' Hs H.
  - inversion H; subst. assumption.
  - unfold bindR in H.
    repeat destr_in H; try discriminate; inversion H; subst;
      try (eapply IH; [|eassumption]; try assumption);
      eapply addNode_sorted; eauto.
Qed.

Lemma appendRemaining_sorted dir node keys :
  forall tb tree tb' tree',
    strictly_sorted (Nodes tree) ->
    appendRemaining dir node keys tb tree = Ok (tb', tree') ->
    strictly_sorted (Nodes tree').
Proof.
  induction keys as [|path keys IH]; simpl; intros tb tree tb' tree' Hs H.
  - inversion H; subst. assumption.
  - unfold bindR in H. repeat destr_in H; try discriminate.
    + eapply IH; [|eassumption]. eapply addNode_sorted; eauto.
    + eapply IH; eauto.
Qed.

(** *** Every run of [makeTree] is a sequence of storage calls *)

Lemma run_step repo1 repo2 repo3 :
  storage_run repo1 repo2 -> storage_step repo2 repo3 -> storage_run repo1 repo3.
Proof. intros. eapply rtc_r; eauto. Qed.

Lemma run_trans repo1 repo2 repo3 :
  storage_run repo1 repo2 -> storage_run repo2 repo3 -> storage_run repo1 repo3.
Proof. apply rtc_trans. Qed.

Lemma rangeNodes_run (rec : ID -> string -> list string -> M ID) dir nodes :
  (forall id d ks repo repo' r,
      rec id d ks repo = Some (repo', r) -> storage_run repo repo') ->
  forall ps tb tree repo repo' r,
    strictly_sorted (Nodes tree) ->
    rangeNodes rec dir nodes ps tb tree repo = Some (repo', r) ->
    storage_run repo repo' /\
    (forall tb' tree', r = Ok (tb', tree') -> strictly_sorted (Nodes tree')).
Proof.
  intros Hrec. induction nodes as [|node rest IH]; intros ps tb tree repo repo' r Hs H.
  - simpl in H. unfold retM in H. inversion H; subst. split; [apply rtc_refl|].
    intros tb' tree' E. inversion E; subst. assumption.
  - simpl in H. unfold bindM, pure in H.
    destruct (scanPaths dir node ps false tb tree) as [[[[ps1 skipNode] tb1] tree1]|e] eqn:Escan.
    2:{ inversion H; subst. split; [apply rtc_refl|discriminate]. }
    pose proof (scanPaths_sorted _ _ _ _ _ _ _ _ _ _ Hs Escan) as Hs1.
    destruct skipNode.
    { eapply IH; eauto. }
    destruct (negb (NodeType node =? "dir")%string).
    { destruct (Tree_Insert tree1 node) as [tree2|e] eqn:Eins.
      2:{ inversion H; subst. split; [apply rtc_refl|discriminate]. }
      destruct (AddNode tb1 node) as [tb2|e] eqn:Eadd.
      2:{ inversion H; subst. split; [apply rtc_refl|discriminate]. }
      eapply IH; [|eassumption]. eapply Tree_Insert_sorted; eauto. }
    destruct (rec _ _ _ repo) as [[repo1 [newID|e]]|] eqn:Erec; [| |discriminate].
    2:{ inversion H; subst. split; [eapply Hrec; eauto|discriminate]. }
    apply Hrec in Erec.
    destruct (Tree_Insert tree1 (set_Subtree node newID)) as [tree2|e] eqn:Eins.
    2:{ inversion H; subst. split; [assumption|discriminate]. }
    destruct (AddNode tb1 (set_Subtree node newID)) as [tb2|e] eqn:Eadd.
    2:{ inversion H; subst. split; [assumption|discriminate]. }
    pose proof (Tree_Insert_sorted _ _ _ Hs1 Eins) as Hs2.
    match type of H with
    | context [match ?x with Ok _ => _ | Err _ => _ end] =>
      destruct x as [[tb3 tree3]|e] eqn:Eapp
    end.
    2:{ inversion H; subst. split; [assumption|discriminate]. }
    assert (Hs3 : strictly_sorted (Nodes tree3)).
    { destruct rest.
      - eapply appendRemaining_sorted; eauto.
      - inversion Eapp; subst. assumption. }
    destruct (IH _ _ _ _ _ _ Hs3 H) as [Hrun Hsorted].
    split; [eapply run_trans; eauto|assumption].
Qed.

Lemma makeTree_run fuel :
  forall nodeID dir includePaths repo repo' r,
    makeTree fuel nodeID dir includePaths repo = Some (repo', r) ->
    storage_run repo repo'.
Proof.
  induction fuel as [|fuel IH]; intros nodeID dir includePaths repo repo' r H.
  - destruct includePaths; simpl in H.
    + inversion H; subst. apply rtc_refl.
    + discriminate.
  - destruct includePaths as [|p paths]; simpl in H.
    + inversion H; subst. apply rtc_refl.
    + unfold bindM at 1 in H.
      destruct (LoadTree nodeID repo) as [[repo1 [curTree|e]]|] eqn:Eload; [| |discriminate].
      2:{ inversion H; subst. apply rtc_once. econstructor 1. eassumption. }
      assert (Hload : storage_run repo repo1).
      { apply rtc_once. econstructor 1. eassumption. }
      unfold bindM at 1 in H.
      match type of H with
      | context [rangeNodes ?rec ?d ?ns ?ps ?tb ?tree repo1] =>
        destruct (rangeNodes rec d ns ps tb tree repo1)
          as [[repo2 [[tb' tree']|e]]|] eqn:Erange; [| |discriminate]
      end.
      2:{ inversion H; subst.
          eapply rangeNodes_run in Erange; [|exact IH|constructor].
          eapply run_trans; [exact Hload|apply Erange]. }
      eapply rangeNodes_run in Erange; [|exact IH|constructor].
      destruct Erange as [Hrange Hsorted]. specialize (Hsorted _ _ eq_refl).
      unfold bindM at 1, pure in H.
      destruct (Finalize tb') as [treeJSON|e].
      2:{ inversion H; subst. eapply run_trans; eauto. }
      unfold bindM at 1 in H.
      destruct (SaveTree tree' repo2) as [[repo3 [id|e]]|] eqn:Esave; [| |discriminate].
      2:{ inversion H; subst. eapply run_step; [eapply run_trans; eauto|].
          econstructor 2; eassumption. }
      unfold bindM at 1 in H.
      destruct (SaveUnpacked treeJSON repo3) as [[repo4 [u|e]]|] eqn:Eblob; [| |discriminate].
      * unfold retM in H. inversion H; subst.
        eapply run_step; [eapply run_step; [eapply run_trans; eauto|]|].
        -- econstructor 2; eassumption.
        -- econstructor 3; eassumption.
      * inversion H; subst.
        eapply run_step; [eapply run_step; [eapply run_trans; eauto|]|].
        -- econstructor 2; eassumption.
        -- econstructor 3; eassumption.
Qed.

(** *** The recursion ends *)

Lemma LoadTree_returns id repo : is_Some (LoadTree id repo).
Proof. unfold LoadTree. repeat destr_goal; eauto. Qed.

Lemma SaveTree_returns t repo : is_Some (SaveTree t repo).
Proof. unfold SaveTree. repeat destr_goal; eauto. Qed.

Lemma SaveUnpacked_returns buf repo : is_Some (SaveUnpacked buf repo).
Proof. unfold SaveUnpacked. repeat destr_goal; eauto. Qed.

Lemma scanPaths_unmarked dir node ps :
  forall skipNode tb tree ps' skipNode' tb' tree',
    scanPaths dir node ps skipNode tb tree = Ok (ps', skipNode', tb', tree') ->
    forall path, In (path, false) ps' -> In (path, false) ps.
Proof.
  induction ps as [|[path rm] ps IH]; simpl; intros skipNode tb tree ps' s' tb' tree' H q Hq.
  - inversion H; subst. assumption.
  - unfold bindR in H.
    repeat destr_in H; try discriminate; inversion H; subst;
      (destruct Hq as [Hq|Hq]; [try discriminate; left; assumption
                               |right; eapply IH; eassumption]).
Qed.

Lemma initial_marks_within dir includePaths :
  marks_within dir (max_length includePaths) (initial_marks dir includePaths).
Proof.
  unfold marks_within, initial_marks. intros path Hin.
  apply in_map_iff in Hin. destruct Hin as [q [Heq Hin]].
  inversion Heq; subst. split.
  - apply HasPrefix_length. destruct (GoStrings.HasPrefix path dir); [reflexivity|discriminate].
  - apply max_length_ge. assumption.
Qed.

Lemma make_keys_unmarked ps path :
  In path (make_keys ps) -> In (path, false) ps.
Proof.
  unfold make_keys, unmarked. rewrite Strings_In, in_map_iff.
  intros [[q rm] [Heq Hin]]. simpl in Heq. subst.
  apply filter_In in Hin. destruct Hin as [Hin Hrm]. simpl in Hrm.
  destruct rm; [discriminate|assumption].
Qed.

Lemma rangeNodes_returns (rec : ID -> string -> list string -> M ID) dir bound nodes :
  (forall id name keys repo,
      (forall path, In path keys -> String.length dir <= String.length path <= bound) ->
      is_Some (rec id (dir ++ name ++ "/")%string keys repo)) ->
  forall ps tb tree repo,
    marks_within dir bound ps ->
    is_Some (rangeNodes rec dir nodes ps tb tree repo).
Proof.
  intros Hrec. induction nodes as [|node rest IH]; intros ps tb tree repo Hps.
  - simpl. unfold retM. eauto.
  - simpl. unfold bindM, pure.
    destruct (scanPaths dir node ps false tb tree) as [[[[ps1 skipNode] tb1] tree1]|e] eqn:Escan;
      [|eauto].
    assert (Hps1 : marks_within dir bound ps1).
    { intros path Hin. apply Hps. eapply scanPaths_unmarked; eauto. }
    destruct skipNode; [apply IH; assumption|].
    destruct (negb (NodeType node =? "dir")%string).
    { destruct (Tree_Insert tree1 node); [|eauto].
      destruct (AddNode tb1 node); [|eauto]. apply IH; assumption. }
    match goal with
    | |- context [rec ?id ?d ?ks repo] =>
      destruct (Hrec id (Name node) ks repo) as [[repo1 [newID|e]] Erec]
    end.
    { intros path Hin. apply Hps1. apply make_keys_unmarked. assumption. }
    2:{ rewrite Erec. eauto. }
    rewrite Erec.
    destruct (Tree_Insert tree1 (set_Subtree node newID)) as [tree2|e2]; [|eauto].
    destruct (AddNode tb1 (set_Subtree node newID)) as [tb2|e2]; [|eauto].
    match goal with
    | |- context [match ?x with Ok _ => _ | Err _ => _ end] =>
      destruct x as [[tb3 tree3]|e3]; [|eauto]
    end.
    apply IH; assumption.
Qed.

Lemma makeTree_returns fuel :
  forall nodeID dir includePaths repo,
    enough_fuel dir includePaths <= fuel ->
    is_Some (makeTree fuel nodeID dir includePaths repo).
Proof.
  induction fuel as [|fuel IH]; intros nodeID dir includePaths repo Hfuel.
  - unfold enough_fuel in Hfuel. lia.
  - destruct includePaths as [|p paths]; [simpl; unfold retM; eauto|].
    remember (p :: paths) as includePaths eqn:Epaths.
    assert (Hbody : is_Some
      (bindM (LoadTree nodeID) (fun curTree =>
         bindM (rangeNodes (makeTree fuel) dir (Nodes curTree)
                  (initial_marks dir includePaths) NewTreeJSONBuilder
                  (NewTree (length (Nodes curTree) + length includePaths)))
           (fun pat => let (tb', tree') := pat in
              bindM (pure (Finalize tb')) (fun treeJSON =>
                bindM (SaveTree tree') (fun id =>
                  bindM (SaveUnpacked treeJSON) (fun _ => retM id))))) repo)).
    { unfold bindM at 1.
      destruct (LoadTree_returns nodeID repo) as [[repo1 [curTree|e]] Eload];
        rewrite Eload; [|eauto].
      unfold bindM at 1.
      match goal with
      | |- context [rangeNodes ?rec ?d ?ns ?ps0 ?tb0 ?tree0 repo1] =>
        assert (Hret : (forall id name keys repo,
                   (forall path, In path keys ->
                                 String.length d <= String.length path
                                 <= max_length includePaths) ->
                   is_Some (rec id (d ++ name ++ "/")%string keys repo)) ->
                       marks_within d (max_length includePaths) ps0 ->
                       is_Some (rangeNodes rec d ns ps0 tb0 tree0 repo1))
          by (intros Hr Hm; apply (rangeNodes_returns rec d _ ns Hr); exact Hm);
        destruct Hret as [[repo2 [[tb' tree']|e]] Erange]
      end.
      { intros id name keys repo0 Hkeys.
        destruct keys as [|k keys]; [destruct fuel; simpl; unfold retM; eauto|].
        apply IH. unfold enough_fuel in *.
        assert (Hk : String.length dir <= String.length k <= max_length includePaths)
          by (apply Hkeys; left; reflexivity).
        assert (Hm : max_length (k :: keys) <= max_length includePaths).
        { apply max_length_le. intros q Hq. apply Hkeys. assumption. }
        rewrite !length_append. simpl String.length. lia. }
      { apply initial_marks_within. }
      2:{ rewrite Erange. eauto. }
      rewrite Erange. unfold bindM at 1, pure.
      destruct (Finalize tb') as [treeJSON|e]; [|eauto].
      unfold bindM at 1.
      destruct (SaveTree_returns tree' repo2) as [[repo3 [id|e]] Esave];
        rewrite Esave; [|eauto].
      unfold bindM, retM.
      destruct (SaveUnpacked_returns treeJSON repo3) as [[repo4 [u|e]] Eblob];
        rewrite Eblob; eauto. }
    subst includePaths. exact Hbody.
Qed.

(** More fuel does not change an outcome. *)
Lemma rangeNodes_rec_mono (rec1 rec2 : ID -> string -> list string -> M ID) dir nodes :
  (forall id d ks repo x, rec1 id d ks repo = Some x -> rec2 id d ks repo = Some x) ->
  forall ps tb tree repo x,
    rangeNodes rec1 dir nodes ps tb tree repo = Some x ->
    rangeNodes rec2 dir nodes ps tb tree repo = Some x.
Proof.
  intros Hrec. induction nodes as [|node rest IH]; intros ps tb tree repo x H.
  - exact H.
  - simpl in *. unfold bindM, pure in *.
    destruct (scanPaths dir node ps false tb tree) as [[[[ps1 skipNode] tb1] tree1]|e];
      [|exact H].
    destruct skipNode; [apply IH; exact H|].
    destruct (negb (NodeType node =? "dir")%string).
    { destruct (Tree_Insert tree1 node); [|exact H].
      destruct (AddNode tb1 node); [|exact H]. apply IH; exact H. }
    match type of H with
    | context [rec1 ?id ?d ?ks repo] =>
      destruct (rec1 id d ks repo) as [[repo1 [newID|e]]|] eqn:Erec; [| |discriminate];
        rewrite (Hrec _ _ _ _ _ Erec)
    end; [|exact H].
    destruct (Tree_Insert tree1 (set_Subtree node newID)) as [tree2|e2]; [|exact H].
    destruct (AddNode tb1 (set_Subtree node newID)) as [tb2|e2]; [|exact H].
    match type of H with
    | context [match ?x with Ok _ => _ | Err _ => _ end] =>
      destruct x as [[tb3 tree3]|e3]; [|exact H]
    end.
    apply IH; exact H.
Qed.

(** The fast path of [makeTree]. *)
Lemma makeTree_nil fuel nodeID dir repo :
  makeTree fuel nodeID dir [] repo = Some (repo, Ok nodeID).
Proof. destruct fuel; reflexivity. Qed.

(** The body of [makeTree] below the fast path. *)
Lemma makeTree_unfold fuel nodeID dir p paths :
  makeTree (S fuel) nodeID dir (p :: paths) =
  (do* curTree <- LoadTree nodeID;
   do* (tb', tree') <- rangeNodes (makeTree fuel) dir (Nodes curTree)
                         (initial_marks dir (p :: paths)) NewTreeJSONBuilder
                         (NewTree (length (Nodes curTree) + length (p :: paths)));
   do* treeJSON <- pure (Finalize tb');
   do* id <- SaveTree tree';
   do* _ <- SaveUnpacked treeJSON;
   retM id).
Proof. reflexivity. Qed.

Lemma makeTree_fuel_S fuel :
  forall nodeID dir includePaths repo x,
    makeTree fuel nodeID dir includePaths repo = Some x ->
    makeTree (S fuel) nodeID dir includePaths repo = Some x.
Proof.
  induction fuel as [|fuel IH]; intros nodeID dir includePaths repo x H.
  - destruct includePaths; [exact H|discriminate].
  - destruct includePaths as [|p paths]; [exact H|].
    rewrite makeTree_unfold in *.
    unfold bindM at 1. unfold bindM at 1 in H.
    destruct (LoadTree nodeID repo) as [[repo1 [curTree|e]]|]; [| exact H | discriminate].
    unfold bindM at 1. unfold bindM at 1 in H.
    match type of H with
    | context [rangeNodes ?rec ?d ?ns ?ps ?tb ?tree repo1] =>
      destruct (rangeNodes rec d ns ps tb tree repo1)
        as [y|] eqn:Erange; [|discriminate]
    end.
    eapply rangeNodes_rec_mono in Erange; [rewrite Erange; exact H|].
    exact IH.
Qed.

Lemma makeTree_fuel_le fuel fuel' nodeID dir includePaths repo x :
  fuel <= fuel' ->
  makeTree fuel nodeID dir includePaths repo = Some x ->
  makeTree fuel' nodeID dir includePaths repo = Some x.
Proof.
  induction 1 as [|fuel' Hle IH]; intros H; [exact H|].
  apply makeTree_fuel_S. apply IH. exact H.
Qed.

(** *** What a sequence of storage calls can do *)

Lemma LoadTree_inv id repo repo' r :
  LoadTree id repo = Some (repo', r) ->
  repo' = log_op (OpLoadTree id) repo /\
  (forall t, r = Ok t -> trees repo !! id = Some t).
Proof.
  unfold LoadTree. intros H.
  repeat destr_in H; inversion H; subst; split; try reflexivity;
    intros t' E; inversion E; subst; congruence.
Qed.

Lemma SaveTree_inv t repo repo' r :
  SaveTree t repo = Some (repo', r) ->
  journal repo' = journal repo ++ [OpSaveTree t] /\
  packs repo' = packs repo /\
  (forall id, r = Ok id -> id = hashTree t) /\
  (forall id t', trees repo !! id = Some t' -> trees repo' !! id = Some t') /\
  (forall id t', trees repo' !! id = Some t' -> trees repo !! id = Some t' \/ t' = t).
Proof.
  unfold SaveTree. intros H.
  repeat destr_in H; inversion H; subst; simpl;
    (split; [reflexivity|]); (split; [reflexivity|]);
    (split; [intros id E; inversion E; reflexivity|]); split; intros id t' Hl; auto.
  - destruct (decide (hashTree t = id)) as [E|Hne].
    + rewrite <- E in Hl. rewrite Hl in *. discriminate.
    + rewrite lookup_insert_ne; assumption.
  - destruct (decide (hashTree t = id)) as [E|Hne].
    + rewrite <- E in Hl. rewrite lookup_insert_eq in Hl. inversion Hl. auto.
    + rewrite lookup_insert_ne in Hl; auto.
Qed.

Lemma SaveUnpacked_inv buf repo repo' r :
  SaveUnpacked buf repo = Some (repo', r) ->
  journal repo' = journal repo ++ [OpSaveUnpacked buf] /\
  trees repo' = trees repo /\
  (exists added, packs repo' = packs repo ++ added).
Proof.
  unfold SaveUnpacked. intros H.
  repeat destr_in H; inversion H; subst; simpl; repeat split; eauto.
  exists []. rewrite app_nil_r. reflexivity.
Qed.

(** A storage call keeps every stored tree and every written file. *)
Lemma step_preserves repo repo' :
  storage_step repo repo' ->
  (forall id t, trees repo !! id = Some t -> trees repo' !! id = Some t) /\
  (exists added, packs repo' = packs repo ++ added).
Proof.
  intros [id r1 r2 r H|t r1 r2 r Hs H|buf r1 r2 r H].
  - apply LoadTree_inv in H. destruct H as [-> _]. simpl. split; [auto|].
    exists []. rewrite app_nil_r. reflexivity.
  - apply SaveTree_inv in H. destruct H as (_ & Hp & _ & Hk & _). split; [exact Hk|].
    exists []. rewrite app_nil_r. exact Hp.
  - apply SaveUnpacked_inv in H. destruct H as (_ & Ht & Hp). rewrite Ht. auto.
Qed.

Lemma run_preserves repo repo' :
  storage_run repo repo' ->
  (forall id t, trees repo !! id = Some t -> trees repo' !! id = Some t) /\
  (exists added, packs repo' = packs repo ++ added).
Proof.
  induction 1 as [repo|repo1 repo2 repo3 Hstep Hrun [IHt [l IHp]]].
  - split; [auto|]. exists []. rewrite app_nil_r. reflexivity.
  - apply step_preserves in Hstep. destruct Hstep as [Ht [l' Hp]]. split.
    + intros id t Hl. apply IHt, Ht, Hl.
    + exists (l' ++ l). rewrite IHp, Hp, app_assoc. reflexivity.
Qed.

(** A storage call adds only sorted trees. *)
Lemma step_sorted repo repo' :
  storage_step repo repo' ->
  (forall t, In (OpSaveTree t) (journal repo') ->
             In (OpSaveTree t) (journal repo) \/ strictly_sorted (Nodes t)) /\
  (forall id t, trees repo' !! id = Some t ->
                trees repo !! id = Some t \/ strictly_sorted (Nodes t)).
Proof.
  intros [id r1 r2 r H|t r1 r2 r Hs H|buf r1 r2 r H].
  - apply LoadTree_inv in H. destruct H as [-> _]. simpl. split; [|auto].
    intros t Hin. apply in_app_or in Hin. destruct Hin as [Hin|[Hin|[]]]; [auto|discriminate].
  - apply SaveTree_inv in H. destruct H as (Hj & _ & _ & _ & Hk). rewrite Hj. split.
    + intros t' Hin. apply in_app_or in Hin. destruct Hin as [Hin|[Hin|[]]]; [auto|].
      inversion Hin; subst. auto.
    + intros id t' Hl. apply Hk in Hl. destruct Hl as [Hl| ->]; auto.
  - apply SaveUnpacked_inv in H. destruct H as (Hj & Ht & _). rewrite Hj, Ht. split; [|auto].
    intros t Hin. apply in_app_or in Hin. destruct Hin as [Hin|[Hin|[]]]; [auto|discriminate].
Qed.

Lemma run_sorted repo repo' :
  storage_run repo repo' ->
  (forall t, In (OpSaveTree t) (journal repo') ->
             In (OpSaveTree t) (journal repo) \/ strictly_sorted (Nodes t)) /\
  (forall id t, trees repo' !! id = Some t ->
                trees repo !! id = Some t \/ strictly_sorted (Nodes t)).
Proof.
  induction 1 as [repo|repo1 repo2 repo3 Hstep Hrun [IHj IHt]]; [auto|].
  apply step_sorted in Hstep. destruct Hstep as [Hj Ht]. split.
  - intros t Hin. apply IHj in Hin. destruct Hin as [Hin|Hin]; [apply Hj, Hin|auto].
  - intros id t Hl. apply IHt in Hl. destruct Hl as [Hl|Hl]; [eapply Ht, Hl|auto].
Qed.

(** Below the fast path the identifier that is returned is that of
    the tree that was built and saved. *)
Lemma makeTree_result fuel nodeID dir p paths repo repo' id :
  makeTree fuel nodeID dir (p :: paths) repo = Some (repo', Ok id) ->
  exists t, id = hashTree t /\ strictly_sorted (Nodes t) /\
            In (OpSaveTree t) (journal repo').
Proof.
  destruct fuel as [|fuel]; [discriminate|].
  rewrite makeTree_unfold. intros H.
  unfold bindM at 1 in H.
  destruct (LoadTree nodeID repo) as [[repo1 [curTree|e]]|]; try discriminate.
  unfold bindM at 1 in H.
  match type of H with
  | context [rangeNodes ?rec ?d ?ns ?ps ?tb ?tree repo1] =>
    destruct (rangeNodes rec d ns ps tb tree repo1)
      as [[repo2 [[tb' tree']|e]]|] eqn:Erange; try discriminate
  end.
  eapply rangeNodes_run in Erange; [|apply makeTree_run|constructor].
  destruct Erange as [_ Hsorted]. specialize (Hsorted _ _ eq_refl).
  unfold bindM at 1, pure in H.
  destruct (Finalize tb') as [treeJSON|e]; try discriminate.
  unfold bindM at 1 in H.
  destruct (SaveTree tree' repo2) as [[repo3 [id'|e]]|] eqn:Esave; try discriminate.
  unfold bindM at 1 in H.
  destruct (SaveUnpacked treeJSON repo3) as [[repo4 [u|e]]|] eqn:Eblob; try discriminate.
  unfold retM in H. inversion H; subst.
  apply SaveTree_inv in Esave. destruct Esave as (Hj & _ & Hid & _).
  apply SaveUnpacked_inv in Eblob. destruct Eblob as (Hj' & _).
  exists tree'. split; [apply Hid; reflexivity|]. split; [assumption|].
  rewrite Hj', Hj. apply in_or_app. left. apply in_or_app. right. left. reflexivity.
Qed.

(** *** Properties of every merge *)

(** C2: with an empty change-path list [makeTree] returns the
    identifier it was given, for every directory prefix, and the
    repository is as before: no tree was loaded or saved and no file
    written (the journal of storage calls is unchanged). *)
Theorem C2_empty_list_returns_prior_id fuel nodeID dir repo :
  makeTree fuel nodeID dir [] repo = Some (repo, Ok nodeID).
Proof. apply makeTree_nil. Qed.

(** C1: every merge comes to an end, by completing or by aborting
    with an error, and then every tree object that was stored before
    is stored unchanged under its identifier, the files written before
    are all still there, and loading any prior identifier again yields
    the very tree it held before the merge. *)
Theorem C1_prior_trees_untouched nodeID dir includePaths repo extra :
  exists repo' r,
    makeTree (enough_fuel dir includePaths + extra) nodeID dir includePaths repo
    = Some (repo', r) /\
    (forall id t, trees repo !! id = Some t -> trees repo' !! id = Some t) /\
    (exists added, packs repo' = packs repo ++ added) /\
    (forall id t, trees repo !! id = Some t ->
                  io_fault (length (journal repo')) = false ->
                  exists repo'', LoadTree id repo' = Some (repo'', Ok t)).
Proof.
  destruct (makeTree_returns (enough_fuel dir includePaths + extra) nodeID dir
              includePaths repo) as [[repo' r] H]; [lia|].
  exists repo', r. split; [exact H|].
  apply makeTree_run, run_preserves in H. destruct H as [Ht Hp].
  split; [exact Ht|]. split; [exact Hp|].
  intros id t Hl Hio. apply Ht in Hl. unfold LoadTree. rewrite Hio, Hl. eauto.
Qed.

(** C3: every merge comes to an end, and every tree it has saved
    (handed to [SaveTree], or stored in the repository by it) has its
    nodes in strictly ascending order of name, hence without two nodes
    of one name; when the change-path list is not empty the identifier
    returned is that of such a tree; and when the trees of the prior
    repository are sorted, so are all trees of the repository it
    leaves. *)
Theorem C3_saved_trees_sorted nodeID dir includePaths repo extra :
  exists repo' r,
    makeTree (enough_fuel dir includePaths + extra) nodeID dir includePaths repo
    = Some (repo', r) /\
    (forall t, In (OpSaveTree t) (journal repo') ->
               In (OpSaveTree t) (journal repo) \/
               (strictly_sorted (Nodes t) /\ List.NoDup (map Name (Nodes t)))) /\
    (forall id t, trees repo' !! id = Some t ->
                  trees repo !! id = Some t \/
                  (strictly_sorted (Nodes t) /\ List.NoDup (map Name (Nodes t)))) /\
    (forall id, r = Ok id -> includePaths <> [] ->
                exists t, id = hashTree t /\ In (OpSaveTree t) (journal repo') /\
                          strictly_sorted (Nodes t) /\ List.NoDup (map Name (Nodes t))) /\
    ((forall id t, trees repo !! id = Some t -> strictly_sorted (Nodes t)) ->
     forall id t, trees repo' !! id = Some t -> strictly_sorted (Nodes t)).
Proof.
  destruct (makeTree_returns (enough_fuel dir includePaths + extra) nodeID dir
              includePaths repo) as [[repo' r] H]; [lia|].
  exists repo', r. split; [exact H|].
  pose proof (run_sorted _ _ (makeTree_run _ _ _ _ _ _ _ H)) as [Hj Ht].
  split; [|split; [|split]].
  - intros t Hin. apply Hj in Hin. destruct Hin as [Hin|Hs]; [auto|right].
    split; [assumption|apply strictly_sorted_NoDup; assumption].
  - intros id t Hl. apply Ht in Hl. destruct Hl as [Hl|Hs]; [auto|right].
    split; [assumption|apply strictly_sorted_NoDup; assumption].
  - intros id -> Hne. destruct includePaths as [|p paths]; [congruence|].
    apply makeTree_result in H. destruct H as (t & Hid & Hs & Hin).
    exists t. repeat split; try assumption. apply strictly_sorted_NoDup; assumption.
  - intros Hprior id t Hl. apply Ht in Hl. destruct Hl as [Hl|Hs]; [eauto|assumption].
Qed.

(** *** One node of the old tree at a time *)

Lemma addNode_fresh path fi tb tree tree' tb' :
  fs path = StatInfo fi -> fi_extra_ok fi = true ->
  Tree_Insert tree (fresh_node path fi) = Ok tree' ->
  AddNode tb (fresh_node path fi) = Ok tb' ->
  addNode path tb tree = Ok (tb', tree').
Proof.
  intros Hfs Hok Hins Hadd. unfold addNode, os_Stat, NodeFromFileInfo.
  rewrite Hfs. simpl. rewrite Hok. simpl.
  rewrite Hins. simpl. rewrite Hadd. reflexivity.
Qed.

Lemma addNode_missing path tb tree :
  fs path = StatNotExist -> addNode path tb tree = Err ErrNotExist.
Proof. intros Hfs. unfold addNode, os_Stat. rewrite Hfs. reflexivity. Qed.

Lemma rangeNodes_skip rec dir node rest ps tb tree ps1 tb1 tree1 :
  scanPaths dir node ps false tb tree = Ok (ps1, true, tb1, tree1) ->
  rangeNodes rec dir (node :: rest) ps tb tree = rangeNodes rec dir rest ps1 tb1 tree1.
Proof. intros H. simpl. unfold bindM, pure. rewrite H. reflexivity. Qed.

Lemma rangeNodes_error rec dir node rest ps tb tree e repo :
  scanPaths dir node ps false tb tree = Err e ->
  rangeNodes rec dir (node :: rest) ps tb tree repo = Some (repo, Err e).
Proof. intros H. simpl. unfold bindM, pure. rewrite H. reflexivity. Qed.

Lemma rangeNodes_copy rec dir node rest ps tb tree ps1 tb1 tree1 tree2 tb2 :
  scanPaths dir node ps false tb tree = Ok (ps1, false, tb1, tree1) ->
  NodeType node <> "dir" ->
  Tree_Insert tree1 node = Ok tree2 ->
  AddNode tb1 node = Ok tb2 ->
  rangeNodes rec dir (node :: rest) ps tb tree = rangeNodes rec dir rest ps1 tb2 tree2.
Proof.
  intros H Hty Hins Hadd. apply String.eqb_neq in Hty.
  simpl. unfold bindM, pure. rewrite H, Hty. simpl. rewrite Hins, Hadd. reflexivity.
Qed.

(** The end of [makeTree] when the storage works: the new tree is
    saved, then the encoded form, and the identifier is the hash. *)
Lemma makeTree_save fuel nodeID dir p paths repo curTree repo2 tb' tree' treeJSON :
  (forall n, io_fault n = false) ->
  trees repo !! nodeID = Some curTree ->
  rangeNodes (makeTree fuel) dir (Nodes curTree) (initial_marks dir (p :: paths))
             NewTreeJSONBuilder (NewTree (length (Nodes curTree) + length (p :: paths)))
             (log_op (OpLoadTree nodeID) repo) = Some (repo2, Ok (tb', tree')) ->
  Finalize tb' = Ok treeJSON ->
  exists repo',
    makeTree (S fuel) nodeID dir (p :: paths) repo = Some (repo', Ok (hashTree tree')) /\
    journal repo' = journal repo2 ++ [OpSaveTree tree'; OpSaveUnpacked treeJSON] /\
    (forall id t, trees repo2 !! id = Some t -> trees repo' !! id = Some t).
Proof.
  intros Hio Hload Hrange Hfin.
  rewrite makeTree_unfold. unfold bindM at 1. unfold LoadTree. rewrite Hio, Hload.
  unfold bindM at 1. rewrite Hrange. unfold bindM at 1, pure. rewrite Hfin.
  unfold bindM at 1.
  destruct (SaveTree tree' repo2) as [[repo3 r]|] eqn:Esave.
  2:{ destruct (SaveTree_returns tree' repo2) as [x Hx]. congruence. }
  pose proof (SaveTree_inv _ _ _ _ Esave) as (Hj & _ & _ & Hk & _).
  assert (r = Ok (hashTree tree')) as ->.
  { unfold SaveTree in Esave. rewrite Hio in Esave.
    destruct (trees repo2 !! hashTree tree'); inversion Esave; reflexivity. }
  unfold bindM, retM, SaveUnpacked. rewrite Hio.
  eexists. split; [reflexivity|]. simpl. split.
  - rewrite Hj, <- app_assoc. reflexivity.
  - exact Hk.
Qed.

(** *** Insertion between two entries *)

(** C7: the prior tree holds the file nodes [b] and [d], named "b"
    and "d", the directory is /x/, the change-path list is [/x/c] and
    /x/c exists on disk.  Provided the storage works and the builder
    accepts the three nodes in this order, the merge returns the
    identifier of the tree whose nodes are exactly [b; c; d], where [b]
    and [d] are the prior nodes and [c] is built from what [os.Stat]
    reports; that tree is the one tree saved. *)
Theorem C7_insertion_keeps_order
        fuel nodeID repo b d fi tb1 tb2 tb3 treeJSON :
  trees repo !! nodeID = Some {| Nodes := [b; d] |} ->
  Name b = "b" -> Name d = "d" ->
  NodeType b <> "dir" -> NodeType d <> "dir" ->
  fs "/x/c" = StatInfo fi -> fi_extra_ok fi = true ->
  (forall n, io_fault n = false) ->
  AddNode NewTreeJSONBuilder b = Ok tb1 ->
  AddNode tb1 (fresh_node "/x/c" fi) = Ok tb2 ->
  AddNode tb2 d = Ok tb3 ->
  Finalize tb3 = Ok treeJSON ->
  exists repo',
    makeTree (S fuel) nodeID "/x/" ["/x/c"] repo
    = Some (repo', Ok (hashTree {| Nodes := [b; fresh_node "/x/c" fi; d] |})) /\
    Name (fresh_node "/x/c" fi) = "c" /\
    journal repo' =
    journal repo ++ [OpLoadTree nodeID;
                     OpSaveTree {| Nodes := [b; fresh_node "/x/c" fi; d] |};
                     OpSaveUnpacked treeJSON].
Proof.
  intros Hload Hb Hd Htb Htd Hfs Hok Hio Hadd1 Hadd2 Hadd3 Hfin.
  assert (Eb : (NodeType b =? "dir")%string = false) by (apply String.eqb_neq; exact Htb).
  assert (Ed : (NodeType d =? "dir")%string = false) by (apply String.eqb_neq; exact Htd).
  assert (Hc : addNode "/x/c" tb1 {| Nodes := [b] |}
               = Ok (tb2, {| Nodes := [b; fresh_node "/x/c" fi] |})).
  { apply (addNode_fresh _ fi); try assumption.
    unfold Tree_Insert. simpl. rewrite Hb. reflexivity. }
  assert (Hscan1 : forall tb tree,
             scanPaths "/x/" b [("/x/c", false)] false tb tree
             = Ok ([("/x/c", false)], false, tb, tree)).
  { intros tb tree. cbn [scanPaths]. unfold sorts_before. rewrite Hb.
    eval_conds. reflexivity. }
  assert (Hscan2 : scanPaths "/x/" d [("/x/c", false)] false tb1 {| Nodes := [b] |}
                   = Ok ([("/x/c", true)], false, tb2,
                         {| Nodes := [b; fresh_node "/x/c" fi] |})).
  { cbn [scanPaths]. unfold sorts_before. rewrite Hd.
    eval_conds. rewrite Hc. reflexivity. }
  edestruct (makeTree_save fuel nodeID "/x/" "/x/c" [] repo) as (repo' & Hres & Hj & _);
    [exact Hio|exact Hload| |exact Hfin|].
  - cbn [Nodes].
    assert (Hins1 : forall n, Tree_Insert (NewTree n) b = Ok {| Nodes := [b] |})
      by reflexivity.
    assert (Hins3 : Tree_Insert {| Nodes := [b; fresh_node "/x/c" fi] |} d
                    = Ok {| Nodes := [b; fresh_node "/x/c" fi; d] |}).
    { unfold Tree_Insert. cbn [Nodes insert_node fresh_node Name]. rewrite Hb, Hd.
      eval_conds. reflexivity. }
    rewrite (rangeNodes_copy _ _ _ _ _ _ _ _ _ _ _ _ (Hscan1 _ _) Htb (Hins1 _) Hadd1).
    rewrite (rangeNodes_copy _ _ _ _ _ _ _ _ _ _ _ _ Hscan2 Htd Hins3 Hadd3).
    reflexivity.
  - exists repo'. split; [exact Hres|]. split; [reflexivity|].
    rewrite Hj. simpl. rewrite <- app_assoc. reflexivity.
Qed.

(** *** Marked paths are inert *)

Lemma scanPaths_all_marked dir node ps skipNode tb tree :
  all_marked ps -> scanPaths dir node ps skipNode tb tree = Ok (ps, skipNode, tb, tree).
Proof.
  induction 1 as [|[path rm] ps Hrm Hall IH]; simpl; [reflexivity|].
  simpl in Hrm. subst rm. rewrite IH. reflexivity.
Qed.

Lemma make_keys_all_marked ps : all_marked ps -> make_keys ps = [].
Proof.
  unfold make_keys, unmarked.
  induction 1 as [|[path rm] ps Hrm Hall IH]; simpl; [reflexivity|].
  simpl in Hrm. subst rm. simpl. exact IH.
Qed.

Lemma initial_marks_all_marked dir includePaths :
  (forall path, In path includePaths -> GoStrings.HasPrefix path dir = false) ->
  all_marked (initial_marks dir includePaths).
Proof.
  unfold all_marked, initial_marks. intros H. apply List.Forall_forall.
  intros [path rm] Hin. apply in_map_iff in Hin. destruct Hin as [q [Heq Hin]].
  inversion Heq; subst. simpl. rewrite (H _ Hin). reflexivity.
Qed.

Lemma Tree_Insert_In tree node tree' x :
  Tree_Insert tree node = Ok tree' -> In x (Nodes tree') <-> x = node \/ In x (Nodes tree).
Proof.
  unfold Tree_Insert. intros H.
  destruct (insert_node node (Nodes tree)) as [nodes|] eqn:E; simpl in H; [|discriminate].
  inversion H; subst. simpl. eapply insert_node_In; eauto.
Qed.

(** With all paths marked the loop copies the old nodes and makes no
    storage call. *)
Lemma rangeNodes_all_marked fuel dir nodes :
  forall ps tb tree repo repo' r,
    all_marked ps ->
    rangeNodes (makeTree fuel) dir nodes ps tb tree repo = Some (repo', r) ->
    repo' = repo /\
    (forall tb' tree', r = Ok (tb', tree') ->
       forall x, In x (Nodes tree') <->
                 In x (Nodes tree) \/ exists n, In n nodes /\ x = carry n).
Proof.
  induction nodes as [|node rest IH]; intros ps tb tree repo repo' r Hps H.
  - simpl in H. unfold retM in H. inversion H; subst. split; [reflexivity|].
    intros tb' tree' E x. inversion E; subst. split; [auto|].
    intros [Hin|[n [[] _]]]. exact Hin.
  - simpl in H. unfold bindM, pure in H.
    rewrite (scanPaths_all_marked _ _ _ _ _ _ Hps) in H.
    rewrite (make_keys_all_marked _ Hps) in H.
    destruct (NodeType node =? "dir")%string eqn:Ety; simpl in H.
    + rewrite makeTree_nil in H.
      destruct (Tree_Insert tree (set_Subtree node _)) as [tree2|e] eqn:Eins.
      2:{ inversion H; subst. split; [reflexivity|discriminate]. }
      destruct (AddNode tb (set_Subtree node _)) as [tb2|e] eqn:Eadd.
      2:{ inversion H; subst. split; [reflexivity|discriminate]. }
      assert (H' : rangeNodes (makeTree fuel) dir rest ps tb2 tree2 repo = Some (repo', r))
        by (destruct rest; exact H).
      destruct (IH _ _ _ _ _ _ Hps H') as [-> Hin]. split; [reflexivity|].
      intros tb' tree' E x. rewrite (Hin _ _ E x), (Tree_Insert_In _ _ _ x Eins).
      unfold carry. split.
      * intros [[->|Hx]|[n [Hn ->]]]; [right; exists node|auto|right; exists n].
        -- rewrite Ety. split; [left|]; reflexivity.
        -- split; [right; assumption|reflexivity].
      * intros [Hx|[n [[->|Hn] ->]]]; [auto| |right; exists n; auto].
        rewrite Ety. auto.
    + destruct (Tree_Insert tree node) as [tree2|e] eqn:Eins.
      2:{ inversion H; subst. split; [reflexivity|discriminate]. }
      destruct (AddNode tb node) as [tb2|e] eqn:Eadd.
      2:{ inversion H; subst. split; [reflexivity|discriminate]. }
      destruct (IH _ _ _ _ _ _ Hps H) as [-> Hin]. split; [reflexivity|].
      intros tb' tree' E x. rewrite (Hin _ _ E x), (Tree_Insert_In _ _ _ x Eins).
      unfold carry. split.
      * intros [[->|Hx]|[n [Hn ->]]]; [right; exists node|auto|right; exists n].
        -- rewrite Ety. split; [left|]; reflexivity.
        -- split; [right; assumption|reflexivity].
      * intros [Hx|[n [[->|Hn] ->]]]; [auto| |right; exists n; auto].
        rewrite Ety. auto.
Qed.

(** A directory entered with change-paths of which none begins with
    its prefix: its tree is loaded, nothing below it is, and the tree
    saved for it holds the old entries, carried over. *)
Lemma makeTree_out_of_scope fuel nodeID dir includePaths repo repo' r :
  includePaths <> [] ->
  (forall path, In path includePaths -> GoStrings.HasPrefix path dir = false) ->
  makeTree (S fuel) nodeID dir includePaths repo = Some (repo', r) ->
  (exists ops, journal repo' = journal repo ++ OpLoadTree nodeID :: ops /\
               forall id, ~ In (OpLoadTree id) ops) /\
  (forall id, r = Ok id ->
     exists curTree t,
       trees repo !! nodeID = Some curTree /\ id = hashTree t /\
       In (OpSaveTree t) (journal repo') /\
       forall x, In x (Nodes t) <-> exists n, In n (Nodes curTree) /\ x = carry n).
Proof.
  intros Hne Hout H. destruct includePaths as [|p paths]; [congruence|].
  rewrite makeTree_unfold in H. unfold bindM at 1 in H.
  destruct (LoadTree nodeID repo) as [[repo1 [curTree|e]]|] eqn:Eload; [| |discriminate].
  2:{ inversion H; subst. apply LoadTree_inv in Eload. destruct Eload as [-> _].
      split; [|discriminate]. exists []. simpl. auto. }
  apply LoadTree_inv in Eload. destruct Eload as [-> Hcur]. specialize (Hcur _ eq_refl).
  unfold bindM at 1 in H.
  match type of H with
  | context [rangeNodes ?rec ?d ?ns ?ps ?tb ?tree ?rp] =>
    destruct (rangeNodes rec d ns ps tb tree rp)
      as [[repo2 [[tb' tree']|e]]|] eqn:Erange; [| |discriminate]
  end.
  2:{ inversion H; subst.
      apply rangeNodes_all_marked in Erange; [|apply initial_marks_all_marked; exact Hout].
      destruct Erange as [-> _]. split; [|discriminate]. exists []. simpl. auto. }
  apply rangeNodes_all_marked in Erange; [|apply initial_marks_all_marked; exact Hout].
  destruct Erange as [-> Hin]. specialize (Hin _ _ eq_refl).
  unfold bindM at 1, pure in H.
  destruct (Finalize tb') as [treeJSON|e].
  2:{ inversion H; subst. split; [|discriminate]. exists []. simpl. auto. }
  unfold bindM at 1 in H.
  destruct (SaveTree tree' _) as [[repo3 [id'|e]]|] eqn:Esave; [| |discriminate].
  2:{ inversion H; subst. apply SaveTree_inv in Esave. destruct Esave as (Hj & _).
      split; [|discriminate]. exists [OpSaveTree tree']. rewrite Hj. simpl.
      rewrite <- app_assoc. split; [reflexivity|].
      intros id [Hx|[]]. discriminate. }
  unfold bindM at 1 in H.
  destruct (SaveUnpacked treeJSON repo3) as [[repo4 [u|e]]|] eqn:Eblob; [| |discriminate].
  - unfold retM in H. inversion H; subst.
    apply SaveTree_inv in Esave. destruct Esave as (Hj & _ & Hid & _).
    apply SaveUnpacked_inv in Eblob. destruct Eblob as (Hj' & _).
    assert (Ejournal : journal repo' = journal repo ++
              OpLoadTree nodeID :: [OpSaveTree tree'; OpSaveUnpacked treeJSON]).
    { rewrite Hj', Hj. simpl. rewrite <- !app_assoc. reflexivity. }
    split.
    + eexists. split; [exact Ejournal|].
      intros id0 [Hx|[Hx|[]]]; discriminate.
    + intros id0 E. inversion E; subst. exists curTree, tree'.
      split; [exact Hcur|]. split; [apply Hid; reflexivity|]. split.
      * rewrite Ejournal. apply in_or_app. right. right. left. reflexivity.
      * intros x. rewrite (Hin x). simpl. split; [intros [[]|Hx]; exact Hx|auto].
  - inversion H; subst.
    apply SaveTree_inv in Esave. destruct Esave as (Hj & _).
    apply SaveUnpacked_inv in Eblob. destruct Eblob as (Hj' & _).
    split; [|discriminate].
    exists [OpSaveTree tree'; OpSaveUnpacked treeJSON]. split.
    + rewrite Hj', Hj. simpl. rewrite <- !app_assoc. reflexivity.
    + intros id0 [Hx|[Hx|[]]]; discriminate.
Qed.

(** C8 (amended): a subtree that is reached with no change-path left
    keeps its identifier and is neither loaded nor saved.  A directory
    that is reached while change-paths are left is loaded even when
    none of them begins with its prefix; then no tree below it is
    loaded, and the tree that is saved for it holds exactly the old
    entries as [carry] copies them: an entry that is no directory as it
    was, a directory entry with its old subtree identifier, or with the
    zero identifier when it had none. *)
Theorem C8_unchanged_subtree_one_level fuel nodeID dir includePaths repo repo' r :
  (forall path, In path includePaths -> GoStrings.HasPrefix path dir = false) ->
  makeTree (S fuel) nodeID dir includePaths repo = Some (repo', r) ->
  match includePaths with
  | [] => repo' = repo /\ r = Ok nodeID
  | _ :: _ =>
    (exists ops, journal repo' = journal repo ++ OpLoadTree nodeID :: ops /\
                 forall id, ~ In (OpLoadTree id) ops) /\
    (forall id, r = Ok id ->
       exists curTree t,
         trees repo !! nodeID = Some curTree /\ id = hashTree t /\
         In (OpSaveTree t) (journal repo') /\
         forall x, In x (Nodes t) <-> exists n, In n (Nodes curTree) /\ x = carry n)
  end.
Proof.
  intros Hout H. destruct includePaths as [|p paths].
  - rewrite makeTree_nil in H. inversion H; subst. auto.
  - eapply makeTree_out_of_scope; eauto. discriminate.
Qed.

(** *** Blank change-paths *)

Lemma scanPaths_thinned dir node ps ps' :
  thinned ps ps' ->
  forall skipNode tb tree,
    match scanPaths dir node ps skipNode tb tree,
          scanPaths dir node ps' skipNode tb tree with
    | Ok (ps1, s, tb1, tree1), Ok (ps1', s', tb1', tree1') =>
      thinned ps1 ps1' /\ s = s' /\ tb1 = tb1' /\ tree1 = tree1'
    | Err e, Err e' => e = e'
    | _, _ => False
    end.
Proof.
  induction 1 as [|[path rm] ps ps' Hth IH|path ps ps' Hth IH]; intros skipNode tb tree.
  - simpl. repeat split. constructor.
  - cbn [scanPaths].
    repeat match goal with
           | |- context [if ?c then _ else _] => destruct c
           end;
      try (destruct (addNode path tb tree) as [[tb0 tree0]|e0]; cbn [bindR]; [|reflexivity]);
      match goal with
      | |- context [scanPaths dir node ps ?s ?t ?u] =>
        specialize (IH s t u);
          destruct (scanPaths dir node ps s t u) as [[[[ps1 s1] tb1] tree1]|e1];
          destruct (scanPaths dir node ps' s t u) as [[[[ps2 s2] tb2] tree2]|e2];
          cbn [bindR]; try contradiction; try assumption;
            destruct IH as (? & ? & ? & ?); repeat split; try assumption;
              constructor; assumption
      end.
  - cbn [scanPaths]. specialize (IH skipNode tb tree).
    destruct (scanPaths dir node ps skipNode tb tree) as [[[[ps1 s1] tb1] tree1]|e1];
      destruct (scanPaths dir node ps' skipNode tb tree) as [[[[ps2 s2] tb2] tree2]|e2];
      cbn [bindR]; try contradiction; try assumption.
    destruct IH as (? & ? & ? & ?); repeat split; try assumption.
    constructor; assumption.
Qed.

Lemma make_keys_thinned ps ps' : thinned ps ps' -> make_keys ps = make_keys ps'.
Proof.
  unfold make_keys, unmarked. intros H. f_equal.
  induction H as [|[path rm] ps ps' Hth IH|path ps ps' Hth IH]; simpl.
  - reflexivity.
  - destruct rm; simpl; [exact IH|]. rewrite IH. reflexivity.
  - exact IH.
Qed.

Lemma rangeNodes_thinned rec dir nodes :
  forall ps ps' tb tree repo,
    thinned ps ps' ->
    rangeNodes rec dir nodes ps tb tree repo = rangeNodes rec dir nodes ps' tb tree repo.
Proof.
  induction nodes as [|node rest IH]; intros ps ps' tb tree repo Hth; [reflexivity|].
  simpl. unfold bindM, pure.
  pose proof (scanPaths_thinned dir node _ _ Hth false tb tree) as Hscan.
  destruct (scanPaths dir node ps false tb tree) as [[[[ps1 s1] tb1] tree1]|e1];
    destruct (scanPaths dir node ps' false tb tree) as [[[[ps2 s2] tb2] tree2]|e2];
    try contradiction.
  2:{ subst. reflexivity. }
  destruct Hscan as (Hth1 & <- & <- & <-).
  destruct s1; [apply IH; assumption|].
  destruct (negb (NodeType node =? "dir")%string).
  - destruct (Tree_Insert tree1 node) as [tree3|e]; [|reflexivity].
    destruct (AddNode tb1 node) as [tb3|e]; [|reflexivity]. apply IH; assumption.
  - rewrite <- (make_keys_thinned _ _ Hth1).
    destruct (rec _ _ _ repo) as [[repo1 [newID|e]]|]; try reflexivity.
    destruct (Tree_Insert tree1 (set_Subtree node newID)) as [tree3|e]; [|reflexivity].
    destruct (AddNode tb1 (set_Subtree node newID)) as [tb3|e]; [|reflexivity].
    match goal with
    | |- context [match ?x with Ok _ => _ | Err _ => _ end] =>
      destruct x as [[tb4 tree4]|e]; [|reflexivity]
    end.
    apply IH; assumption.
Qed.

Lemma initial_marks_thinned dir includePaths :
  dir <> "" ->
  thinned (initial_marks dir includePaths) (initial_marks dir (drop_blank includePaths)).
Proof.
  intros Hdir. unfold initial_marks, drop_blank.
  induction includePaths as [|path paths IH]; simpl; [constructor|].
  destruct (String.eqb path "") eqn:E; simpl.
  - apply String.eqb_eq in E. subst path.
    rewrite (HasPrefix_empty dir Hdir). simpl. constructor. exact IH.
  - constructor. exact IH.
Qed.

Lemma drop_blank_nil includePaths path :
  drop_blank includePaths = [] -> In path includePaths -> path = "".
Proof.
  unfold drop_blank. intros H Hin.
  destruct (String.eqb path "") eqn:E; [apply String.eqb_eq; exact E|].
  assert (Hf : In path (List.filter (fun p => negb (String.eqb p "")) includePaths)).
  { apply filter_In. split; [exact Hin|]. rewrite E. reflexivity. }
  rewrite H in Hf. destruct Hf.
Qed.

(** C10 (amended): when the directory prefix is not empty, an
    empty-string entry matches no prior node and causes neither a
    deletion nor an insertion.  If the list holds another entry, the
    merge is the merge of the list without the empty strings, in its
    result and in the repository it leaves.  If the list holds empty
    strings only, the tree is loaded and a tree is saved that holds
    exactly the old entries, carried over. *)
Theorem C10_blank_paths_inert fuel nodeID dir includePaths repo :
  dir <> "" ->
  (drop_blank includePaths <> [] ->
   makeTree fuel nodeID dir includePaths repo
   = makeTree fuel nodeID dir (drop_blank includePaths) repo) /\
  (drop_blank includePaths = [] -> includePaths <> [] ->
   forall repo' r,
     makeTree (S fuel) nodeID dir includePaths repo = Some (repo', r) ->
     (exists ops, journal repo' = journal repo ++ OpLoadTree nodeID :: ops /\
                  forall id, ~ In (OpLoadTree id) ops) /\
     (forall id, r = Ok id ->
        exists curTree t,
          trees repo !! nodeID = Some curTree /\ id = hashTree t /\
          In (OpSaveTree t) (journal repo') /\
          forall x, In x (Nodes t) <-> exists n, In n (Nodes curTree) /\ x = carry n)).
Proof.
  intros Hdir. split.
  - intros Hne. destruct includePaths as [|p paths]; [reflexivity|].
    destruct (drop_blank (p :: paths)) as [|q qs] eqn:Ed; [congruence|].
    destruct fuel as [|fuel]; [reflexivity|].
    rewrite !makeTree_unfold. unfold bindM at 1. unfold bindM at 5.
    destruct (LoadTree nodeID repo) as [[repo1 [curTree|e]]|]; try reflexivity.
    unfold bindM at 1. unfold bindM at 4.
    rewrite <- Ed. unfold NewTree.
    rewrite (rangeNodes_thinned _ _ _ _ _ _ _ _ (initial_marks_thinned dir (p :: paths) Hdir)).
    reflexivity.
  - intros Hblank Hne repo' r H.
    eapply makeTree_out_of_scope; [exact Hne| |exact H].
    intros path Hin. rewrite (drop_blank_nil _ _ Hblank Hin).
    apply HasPrefix_empty. exact Hdir.
Qed.

(** *** Change-paths that are not on disk *)

Lemma scanPaths_missing_head dir node path ps skipNode tb tree :
  fs path = StatNotExist -> path <> "" ->
  (dir ++ Name node)%string <> path -> sorts_before dir node path = true ->
  scanPaths dir node ((path, false) :: ps) skipNode tb tree = Err ErrNotExist.
Proof.
  intros Hfs Hne Hhit Hsort. cbn [scanPaths].
  apply String.eqb_neq in Hne. apply String.eqb_neq in Hhit.
  rewrite Hne, Hhit, Hsort. cbn [andb]. rewrite orb_true_r.
  rewrite (addNode_missing _ _ _ Hfs). reflexivity.
Qed.

Lemma scanPaths_missing_fails dir node path ps :
  fs path = StatNotExist -> path <> "" ->
  (dir ++ Name node)%string <> path -> sorts_before dir node path = true ->
  In (path, false) ps ->
  forall skipNode tb tree, exists e, scanPaths dir node ps skipNode tb tree = Err e.
Proof.
  intros Hfs Hne Hhit Hsort. induction ps as [|[q rm] ps IH]; intros Hin skipNode tb tree.
  - destruct Hin.
  - destruct Hin as [Heq|Hin].
    + inversion Heq; subst. rewrite scanPaths_missing_head; eauto.
    + specialize (IH Hin). cbn [scanPaths].
      repeat match goal with
             | |- context [if ?c then _ else _] => destruct c
             end;
        try (destruct (addNode q tb tree) as [[tb0 tree0]|e0]; cbn [bindR]; [|eauto]);
        match goal with
        | |- context [scanPaths dir node ps ?s ?t ?u] =>
          destruct (IH s t u) as [e He]; rewrite He; cbn [bindR]; eauto
        end.
Qed.

(** A path that is not on disk is never marked. *)
Lemma scanPaths_missing_stays dir node path ps :
  fs path = StatNotExist ->
  forall skipNode tb tree ps' skipNode' tb' tree',
    scanPaths dir node ps skipNode tb tree = Ok (ps', skipNode', tb', tree') ->
    In (path, false) ps -> In (path, false) ps'.
Proof.
  intros Hfs. induction ps as [|[q rm] ps IH];
    intros skipNode tb tree ps' s' tb' tree' H Hin; [destruct Hin|].
  cbn [scanPaths] in H. unfold bindR in H.
  destruct Hin as [Heq|Hin].
  - inversion Heq; subst.
    rewrite (addNode_missing _ _ _ Hfs) in H.
    repeat destr_in H; try discriminate; inversion H; subst; left; reflexivity.
  - repeat destr_in H; try discriminate; inversion H; subst; right; eapply IH; eauto.
Qed.

Lemma rangeNodes_missing_fails rec dir path n nodes :
  fs path = StatNotExist -> path <> "" ->
  (dir ++ Name n)%string <> path -> sorts_before dir n path = true ->
  In n nodes ->
  forall ps tb tree repo repo' r,
    In (path, false) ps ->
    rangeNodes rec dir nodes ps tb tree repo = Some (repo', r) ->
    exists e, r = Err e.
Proof.
  intros Hfs Hne Hhit Hsort. induction nodes as [|node rest IH];
    intros Hn ps tb tree repo repo' r Hin H; [destruct Hn|].
  simpl in H. unfold bindM, pure in H.
  destruct (scanPaths dir node ps false tb tree) as [[[[ps1 skipNode] tb1] tree1]|e] eqn:Escan.
  2:{ inversion H; subst. eauto. }
  destruct Hn as [->|Hn].
  { destruct (scanPaths_missing_fails dir n path ps Hfs Hne Hhit Hsort Hin false tb tree)
      as [e He]. congruence. }
  pose proof (scanPaths_missing_stays _ _ _ _ Hfs _ _ _ _ _ _ _ Escan Hin) as Hin1.
  specialize (IH Hn).
  destruct skipNode; [eapply IH; eauto|].
  destruct (negb (NodeType node =? "dir")%string).
  { destruct (Tree_Insert tree1 node) as [tree2|e]; [|inversion H; eauto].
    destruct (AddNode tb1 node) as [tb2|e]; [|inversion H; eauto].
    eapply IH; eauto. }
  destruct (rec _ _ _ repo) as [[repo1 [newID|e]]|]; [| inversion H; eauto | discriminate].
  destruct (Tree_Insert tree1 (set_Subtree node newID)) as [tree2|e]; [|inversion H; eauto].
  destruct (AddNode tb1 (set_Subtree node newID)) as [tb2|e]; [|inversion H; eauto].
  match type of H with
  | context [match ?x with Ok _ => _ | Err _ => _ end] =>
    destruct x as [[tb3 tree3]|e]; [|inversion H; eauto]
  end.
  eapply IH; eauto.
Qed.

(** C5 (amended): let the change-path [path] not exist on disk.  At
    the prior node that [path] names the NotFound of [os.Stat] is not
    returned: the scan of that node ends without an error and the node
    is not copied.  If [path] names no prior node, begins with the
    directory prefix and sorts before some prior node of the
    directory, it is not ignored: every merge of a list that holds it
    fails, and it fails with the NotFound error when [path] is the
    first change-path, the node is the first prior node and the tree
    could be loaded. *)
Theorem C5_missing_path_not_ignored
        nodeID dir includePaths repo extra path curTree n :
  fs path = StatNotExist -> path <> "" ->
  (forall node tb tree,
      (dir ++ Name node)%string = path ->
      exists ps', scanPaths dir node [(path, false)] false tb tree
                  = Ok (ps', true, tb, tree)) /\
  (GoStrings.HasPrefix path dir = true -> In path includePaths ->
   trees repo !! nodeID = Some curTree ->
   (forall node, In node (Nodes curTree) -> (dir ++ Name node)%string <> path) ->
   In n (Nodes curTree) -> sorts_before dir n path = true ->
   exists repo' e,
     makeTree (enough_fuel dir includePaths + extra) nodeID dir includePaths repo
     = Some (repo', Err e) /\
     (io_fault (length (journal repo)) = false ->
      (exists rest, Nodes curTree = n :: rest) ->
      (exists paths, includePaths = path :: paths) ->
      e = ErrNotExist)).
Proof.
  intros Hfs Hne. split.
  - intros node tb tree Hhit. cbn [scanPaths].
    apply String.eqb_neq in Hne. apply String.eqb_eq in Hhit.
    unfold os_Stat. rewrite Hne, Hhit, Hfs. simpl. eauto.
  - intros Hpre Hin Hload Hnames Hn Hsort.
    destruct (makeTree_returns (enough_fuel dir includePaths + extra) nodeID dir
                includePaths repo) as [[repo' r] H]; [lia|].
    exists repo'. destruct includePaths as [|p paths]; [destruct Hin|].
    replace (enough_fuel dir (p :: paths) + extra)
      with (S (S (max_length (p :: paths)) - String.length dir + extra)) in *
      by (unfold enough_fuel; lia).
    rewrite H. rewrite makeTree_unfold in H. unfold bindM at 1, LoadTree in H.
    destruct (io_fault (length (journal repo))) eqn:Hio.
    { inversion H; subst. eexists. split; [reflexivity|discriminate]. }
    rewrite Hload in H. unfold bindM at 1 in H.
    assert (Hmark : In (path, false) (initial_marks dir (p :: paths))).
    { unfold initial_marks. apply in_map_iff. exists path.
      rewrite Hpre. split; [reflexivity|exact Hin]. }
    match type of H with
    | context [rangeNodes ?rec ?d ?ns ?ps ?tb ?tree ?rp] =>
      destruct (rangeNodes rec d ns ps tb tree rp)
        as [[repo2 r2]|] eqn:Erange; [|discriminate]
    end.
    pose proof Erange as Efail.
    eapply rangeNodes_missing_fails in Efail; eauto.
    destruct Efail as [e ->]. inversion H; subst.
    exists e. split; [reflexivity|].
    intros _ [rest Hrest] [paths' Hpaths]. inversion Hpaths; subst.
    rewrite Hrest in Erange. cbn [initial_marks map] in Erange.
    rewrite Hpre in Erange. cbn [negb] in Erange.
    rewrite (rangeNodes_error _ _ _ _ _ _ _ ErrNotExist) in Erange.
    + inversion Erange; reflexivity.
    + apply scanPaths_missing_head; auto.
Qed.

(** *** The merge of one directory, entry by entry *)

Local Abbreviation copyNodes := (copyNodes TreeJSONBuilder AddNode).
Local Abbreviation saveNew := (saveNew TreeJSONBuilder Finalize hashTree io_fault).

Lemma copyNodes_app l1 l2 :
  forall tb tree,
    copyNodes (l1 ++ l2) tb tree =
    (let* (tb', tree') := copyNodes l1 tb tree in copyNodes l2 tb' tree').
Proof.
  induction l1 as [|n l1 IH]; intros tb tree; [reflexivity|].
  simpl. destruct (Tree_Insert tree n) as [tree1|e]; [|reflexivity]. simpl.
  destruct (AddNode tb n) as [tb1|e]; [|reflexivity]. simpl. apply IH.
Qed.

Lemma copyNodes_In l :
  forall tb tree tb' tree',
    copyNodes l tb tree = Ok (tb', tree') ->
    forall x, In x (Nodes tree') <-> In x (Nodes tree) \/ In x l.
Proof.
  induction l as [|n l IH]; intros tb tree tb' tree' H x.
  - inversion H; subst. simpl. tauto.
  - simpl in H. destruct (Tree_Insert tree n) as [tree1|e] eqn:Eins; [|discriminate].
    simpl in H. destruct (AddNode tb n) as [tb1|e]; [|discriminate]. simpl in H.
    rewrite (IH _ _ _ _ H x), (Tree_Insert_In _ _ _ x Eins). simpl.
    split; [intros [[->|Hx]|Hx]|intros [Hx|[->|Hx]]]; auto.
Qed.

Lemma copyNodes_sorted l :
  forall tb tree tb' tree',
    strictly_sorted (Nodes tree) ->
    copyNodes l tb tree = Ok (tb', tree') -> strictly_sorted (Nodes tree').
Proof.
  induction l as [|n l IH]; intros tb tree tb' tree' Hs H.
  - inversion H; subst. assumption.
  - simpl in H. destruct (Tree_Insert tree n) as [tree1|e] eqn:Eins; [|discriminate].
    simpl in H. destruct (AddNode tb n) as [tb1|e]; [|discriminate]. simpl in H.
    eapply IH; [|exact H]. eapply Tree_Insert_sorted; eauto.
Qed.

Lemma addNode_copy path fi tb tree :
  fs path = StatInfo fi -> fi_extra_ok fi = true ->
  addNode path tb tree = copyNodes [fresh_node path fi] tb tree.
Proof.
  intros Hfs Hok. unfold addNode, os_Stat, NodeFromFileInfo. rewrite Hfs. simpl.
  rewrite Hok. simpl. destruct (Tree_Insert tree (fresh_node path fi)); [|reflexivity].
  simpl. destruct (AddNode tb (fresh_node path fi)); reflexivity.
Qed.

(** A node that every unmarked path passes leaves the state as it is. *)
Lemma scanPaths_passes dir node ps :
  (forall path, In (path, false) ps -> path <> "" -> passes dir node path = true) ->
  forall tb tree, scanPaths dir node ps false tb tree = Ok (ps, false, tb, tree).
Proof.
  induction ps as [|[q rm] ps IH]; intros Hpass tb tree; [reflexivity|].
  cbn [scanPaths].
  assert (Hrest : scanPaths dir node ps false tb tree = Ok (ps, false, tb, tree)).
  { apply IH. intros path Hin. apply Hpass. right. exact Hin. }
  destruct rm; [rewrite Hrest; reflexivity|].
  destruct (String.eqb q "") eqn:Eq; [rewrite Hrest; reflexivity|].
  assert (Hq : passes dir node q = true).
  { apply Hpass; [left; reflexivity|]. apply String.eqb_neq. exact Eq. }
  unfold passes in Hq. apply andb_prop in Hq. destruct Hq as [Hhit Hsort].
  apply negb_true_iff in Hhit. apply negb_true_iff in Hsort.
  rewrite Hhit, Hsort. cbn [andb orb]. rewrite Hrest. reflexivity.
Qed.

Lemma rangeNodes_plain rec dir ps pre rest :
  Forall (plain_node dir ps) pre ->
  forall tb tree repo,
    rangeNodes rec dir (pre ++ rest) ps tb tree repo =
    match copyNodes pre tb tree with
    | Ok (tb', tree') => rangeNodes rec dir rest ps tb' tree' repo
    | Err e => Some (repo, Err e)
    end.
Proof.
  induction 1 as [|n pre [Hty Hpass] Hpre IH]; intros tb tree repo; [reflexivity|].
  apply String.eqb_neq in Hty.
  cbn [app rangeNodes]. unfold bindM at 1, pure.
  rewrite (scanPaths_passes _ _ _ Hpass). rewrite Hty. cbn [negb].
  unfold bindM at 1. cbn [copyNodes].
  destruct (Tree_Insert tree n) as [tree1|e]; [|reflexivity]. cbn [bindR].
  unfold bindM at 1.
  destruct (AddNode tb n) as [tb1|e]; [|reflexivity]. cbn [bindR]. apply IH.
Qed.

(** With all paths marked the loop is the copy of the carried nodes. *)
Lemma rangeNodes_marked fuel dir ps nodes :
  all_marked ps ->
  forall tb tree repo,
    rangeNodes (makeTree fuel) dir nodes ps tb tree repo
    = Some (repo, copyNodes (map carry nodes) tb tree).
Proof.
  intros Hps. induction nodes as [|n nodes IH]; intros tb tree repo; [reflexivity|].
  cbn [rangeNodes map copyNodes]. unfold bindM at 1, pure.
  rewrite (scanPaths_all_marked _ _ _ _ _ _ Hps).
  rewrite (make_keys_all_marked _ Hps). unfold carry at 1 2.
  destruct (NodeType n =? "dir")%string; cbn [negb].
  - unfold bindM at 1. rewrite makeTree_nil.
    unfold bindM at 1.
    destruct (Tree_Insert tree (set_Subtree n _)) as [tree1|e]; [|reflexivity].
    cbn [bindR]. unfold bindM at 1.
    destruct (AddNode tb (set_Subtree n _)) as [tb1|e]; [|reflexivity].
    cbn [bindR]. unfold bindM at 1.
    destruct nodes; cbn [appendRemaining]; apply IH.
  - unfold bindM at 1.
    destruct (Tree_Insert tree n) as [tree1|e]; [|reflexivity].
    cbn [bindR]. unfold bindM at 1.
    destruct (AddNode tb n) as [tb1|e]; [|reflexivity].
    cbn [bindR]. apply IH.
Qed.

Lemma makeTree_saveNew fuel nodeID dir p paths :
  makeTree (S fuel) nodeID dir (p :: paths) =
  (do* curTree <- LoadTree nodeID;
   do* (tb', tree') <- rangeNodes (makeTree fuel) dir (Nodes curTree)
                         (initial_marks dir (p :: paths)) NewTreeJSONBuilder
                         (NewTree (length (Nodes curTree) + length (p :: paths)));
   saveNew tb' tree').
Proof. reflexivity. Qed.

(** When the loop amounts to the copy of [nodes] and the storage
    works, the merge loads the tree, saves the copy and its encoded
    form, and returns the hash of the copy. *)
Lemma makeTree_copy fuel nodeID dir p paths repo curTree repo2 nodes tb' tree' treeJSON :
  (forall n, io_fault n = false) ->
  trees repo !! nodeID = Some curTree ->
  rangeNodes (makeTree fuel) dir (Nodes curTree) (initial_marks dir (p :: paths))
             NewTreeJSONBuilder (NewTree (length (Nodes curTree) + length (p :: paths)))
             (log_op (OpLoadTree nodeID) repo)
  = Some (repo2, copyNodes nodes NewTreeJSONBuilder (NewTree 0)) ->
  copyNodes nodes NewTreeJSONBuilder (NewTree 0) = Ok (tb', tree') ->
  Finalize tb' = Ok treeJSON ->
  exists repo',
    makeTree (S fuel) nodeID dir (p :: paths) repo = Some (repo', Ok (hashTree tree')) /\
    journal repo' = journal repo2 ++ [OpSaveTree tree'; OpSaveUnpacked treeJSON] /\
    (forall x, In x (Nodes tree') <-> In x nodes) /\
    strictly_sorted (Nodes tree').
Proof.
  intros Hio Hload Hrange Hcopy Hfin. rewrite Hcopy in Hrange.
  destruct (makeTree_save fuel nodeID dir p paths repo curTree repo2 tb' tree' treeJSON
              Hio Hload Hrange Hfin) as (repo' & Hres & Hj & _).
  exists repo'. split; [exact Hres|]. split; [exact Hj|]. split.
  - intros x. rewrite (copyNodes_In _ _ _ _ _ Hcopy x). simpl. tauto.
  - eapply copyNodes_sorted; [|exact Hcopy]. constructor.
Qed.

Lemma initial_marks_one dir path :
  GoStrings.HasPrefix path dir = true -> initial_marks dir [path] = [(path, false)].
Proof. intros H. unfold initial_marks. simpl. rewrite H. reflexivity. Qed.

Lemma scanPaths_hit_present dir node path tb tree :
  (dir ++ Name node)%string = path -> path <> "" ->
  (exists fi, fs path = StatInfo fi) ->
  scanPaths dir node [(path, false)] false tb tree =
  (let* (tb', tree') := addNode path tb tree in Ok ([(path, true)], true, tb', tree')).
Proof.
  intros Hhit Hne [fi Hfs]. cbn [scanPaths].
  apply String.eqb_neq in Hne. apply String.eqb_eq in Hhit.
  unfold os_Stat. rewrite Hne, Hhit, Hfs. cbn [IsNotExist andb orb].
  destruct (addNode path tb tree) as [[tb1 tree1]|e]; reflexivity.
Qed.

Lemma scanPaths_hit_missing dir node path tb tree :
  (dir ++ Name node)%string = path -> path <> "" -> fs path = StatNotExist ->
  scanPaths dir node [(path, false)] false tb tree = Ok ([(path, false)], true, tb, tree).
Proof.
  intros Hhit Hne Hfs. cbn [scanPaths].
  apply String.eqb_neq in Hne. apply String.eqb_eq in Hhit.
  unfold os_Stat. rewrite Hne, Hhit, Hfs. reflexivity.
Qed.

Lemma scanPaths_before dir node path tb tree :
  (dir ++ Name node)%string <> path -> path <> "" -> sorts_before dir node path = true ->
  scanPaths dir node [(path, false)] false tb tree =
  (let* (tb', tree') := addNode path tb tree in Ok ([(path, true)], false, tb', tree')).
Proof.
  intros Hhit Hne Hsort. cbn [scanPaths].
  apply String.eqb_neq in Hne. apply String.eqb_neq in Hhit.
  rewrite Hne, Hhit, Hsort. cbn [andb orb].
  destruct (addNode path tb tree) as [[tb1 tree1]|e]; reflexivity.
Qed.

(** The loop when the one change-path names the node [f] and is on disk. *)
Lemma rangeNodes_modified fuel dir path pre f post fi tb tree repo :
  Forall (plain_node dir [(path, false)]) pre ->
  (dir ++ Name f)%string = path -> path <> "" ->
  fs path = StatInfo fi -> fi_extra_ok fi = true ->
  rangeNodes (makeTree fuel) dir (pre ++ f :: post) [(path, false)] tb tree repo
  = Some (repo, copyNodes (pre ++ fresh_node path fi :: map carry post) tb tree).
Proof.
  intros Hpre Hhit Hne Hfs Hok.
  rewrite (rangeNodes_plain _ _ _ _ _ Hpre), copyNodes_app.
  destruct (copyNodes pre tb tree) as [[tb1 tree1]|e]; [|reflexivity]. cbn [bindR].
  change (fresh_node path fi :: map carry post)
    with ([fresh_node path fi] ++ map carry post).
  rewrite copyNodes_app, <- (addNode_copy _ _ _ _ Hfs Hok).
  pose proof (scanPaths_hit_present dir f path tb1 tree1 Hhit Hne (ex_intro _ fi Hfs))
    as Hscan.
  destruct (addNode path tb1 tree1) as [[tb2 tree2]|e]; cbn [bindR] in *.
  - rewrite (rangeNodes_skip _ _ _ _ _ _ _ _ _ _ Hscan).
    apply rangeNodes_marked. repeat constructor.
  - apply rangeNodes_error. exact Hscan.
Qed.

(** The loop when the one change-path names the node [f] and is not
    on disk, and the later nodes let the path pass. *)
Lemma rangeNodes_deleted fuel dir path pre f post tb tree repo :
  Forall (plain_node dir [(path, false)]) pre ->
  Forall (plain_node dir [(path, false)]) post ->
  (dir ++ Name f)%string = path -> path <> "" -> fs path = StatNotExist ->
  rangeNodes (makeTree fuel) dir (pre ++ f :: post) [(path, false)] tb tree repo
  = Some (repo, copyNodes (pre ++ post) tb tree).
Proof.
  intros Hpre Hpost Hhit Hne Hfs.
  rewrite (rangeNodes_plain _ _ _ _ _ Hpre), copyNodes_app.
  destruct (copyNodes pre tb tree) as [[tb1 tree1]|e]; [|reflexivity]. cbn [bindR].
  rewrite (rangeNodes_skip _ _ _ _ _ _ _ _ _ _
             (scanPaths_hit_missing dir f path tb1 tree1 Hhit Hne Hfs)).
  rewrite <- (app_nil_r post) at 1.
  rewrite (rangeNodes_plain _ _ _ _ _ Hpost). cbn [rangeNodes].
  destruct (copyNodes post tb1 tree1) as [[tb2 tree2]|e]; reflexivity.
Qed.

(** The loop when the one change-path is new, on disk and sorts
    before the node [n]. *)
Lemma rangeNodes_inserted fuel dir path pre n post fi tb tree repo :
  Forall (plain_node dir [(path, false)]) pre ->
  (dir ++ Name n)%string <> path -> path <> "" -> sorts_before dir n path = true ->
  fs path = StatInfo fi -> fi_extra_ok fi = true ->
  rangeNodes (makeTree fuel) dir (pre ++ n :: post) [(path, false)] tb tree repo
  = Some (repo, copyNodes (pre ++ fresh_node path fi :: map carry (n :: post)) tb tree).
Proof.
  intros Hpre Hhit Hne Hsort Hfs Hok.
  rewrite (rangeNodes_plain _ _ _ _ _ Hpre), copyNodes_app.
  destruct (copyNodes pre tb tree) as [[tb1 tree1]|e]; [|reflexivity]. cbn [bindR].
  change (fresh_node path fi :: map carry (n :: post))
    with ([fresh_node path fi] ++ map carry (n :: post)).
  rewrite copyNodes_app, <- (addNode_copy _ _ _ _ Hfs Hok).
  pose proof (scanPaths_before dir n path tb1 tree1 Hhit Hne Hsort) as Hscan.
  destruct (addNode path tb1 tree1) as [[tb2 tree2]|e]; cbn [bindR] in *.
  - rewrite <- (rangeNodes_marked fuel dir [(path, true)] (n :: post));
      [|repeat constructor].
    cbn [rangeNodes]. unfold bindM at 1 3, pure. rewrite Hscan.
    rewrite (scanPaths_all_marked dir n [(path, true)] false tb2 tree2);
      [reflexivity|repeat constructor].
  - apply rangeNodes_error. exact Hscan.
Qed.

(** The loop when the one change-path passes every node and no node
    is a directory. *)
Lemma rangeNodes_passed rec dir ps nodes tb tree repo :
  Forall (plain_node dir ps) nodes ->
  rangeNodes rec dir nodes ps tb tree repo = Some (repo, copyNodes nodes tb tree).
Proof.
  intros Hall. rewrite <- (app_nil_r nodes) at 1.
  rewrite (rangeNodes_plain _ _ _ _ _ Hall). cbn [rangeNodes].
  destruct (copyNodes nodes tb tree) as [[tb2 tree2]|e]; reflexivity.
Qed.

(** The merge with one change-path of the directory, when the loop
    amounts to the copy of [nodes]. *)
Lemma makeTree_one fuel nodeID dir path repo curTree nodes tb' tree' treeJSON :
  (forall n, io_fault n = false) ->
  trees repo !! nodeID = Some curTree ->
  GoStrings.HasPrefix path dir = true ->
  (forall tb tree repo1,
      rangeNodes (makeTree fuel) dir (Nodes curTree) [(path, false)] tb tree repo1
      = Some (repo1, copyNodes nodes tb tree)) ->
  copyNodes nodes NewTreeJSONBuilder (NewTree 0) = Ok (tb', tree') ->
  Finalize tb' = Ok treeJSON ->
  exists repo',
    makeTree (S fuel) nodeID dir [path] repo = Some (repo', Ok (hashTree tree')) /\
    journal repo' = journal repo ++ [OpLoadTree nodeID; OpSaveTree tree';
                                     OpSaveUnpacked treeJSON] /\
    (forall x, In x (Nodes tree') <-> In x nodes) /\
    strictly_sorted (Nodes tree').
Proof.
  intros Hio Hload Hpre Hrange Hcopy Hfin.
  destruct (makeTree_copy fuel nodeID dir path [] repo curTree
              (log_op (OpLoadTree nodeID) repo) nodes tb' tree' treeJSON Hio Hload)
    as (repo' & Hres & Hj & Hin & Hs); [|exact Hcopy|exact Hfin|].
  - rewrite (initial_marks_one _ _ Hpre). apply Hrange.
  - exists repo'. split; [exact Hres|]. split; [|split; assumption].
    rewrite Hj. simpl. rewrite <- app_assoc. reflexivity.
Qed.

(** Modification.  The change-path names the prior node [f] and is on
    disk; the nodes before [f] are no directories and let the path
    pass.  With a working storage and no clash of names, one tree is
    loaded and one saved; the saved tree, whose hash is returned, holds
    the nodes before [f], the node made from the file system in place
    of [f], and the nodes after [f] carried over; it is strictly
    sorted. *)
Theorem modified_entry_replaced
        fuel nodeID dir path repo curTree pre f post fi tb' tree' treeJSON :
  (forall n, io_fault n = false) ->
  trees repo !! nodeID = Some curTree ->
  Nodes curTree = pre ++ f :: post ->
  GoStrings.HasPrefix path dir = true -> path <> "" ->
  Forall (plain_node dir [(path, false)]) pre ->
  (dir ++ Name f)%string = path ->
  fs path = StatInfo fi -> fi_extra_ok fi = true ->
  copyNodes (pre ++ fresh_node path fi :: map carry post) NewTreeJSONBuilder (NewTree 0)
  = Ok (tb', tree') ->
  Finalize tb' = Ok treeJSON ->
  exists repo',
    makeTree (S fuel) nodeID dir [path] repo = Some (repo', Ok (hashTree tree')) /\
    journal repo' = journal repo ++ [OpLoadTree nodeID; OpSaveTree tree';
                                     OpSaveUnpacked treeJSON] /\
    (forall x, In x (Nodes tree') <->
               In x (pre ++ fresh_node path fi :: map carry post)) /\
    strictly_sorted (Nodes tree').
Proof.
  intros Hio Hload Hnodes Hpre Hne Hplain Hhit Hfs Hok Hcopy Hfin.
  eapply makeTree_one; eauto.
  intros tb tree repo1. rewrite Hnodes. apply rangeNodes_modified; assumption.
Qed.

(** Deletion.  The change-path names the prior node [f] and is not on
    disk; the other nodes are no directories and let the path pass (so
    none of them lies in the directory of the path and sorts after
    it).  With a working storage the saved tree, whose hash is
    returned, holds the other nodes and not a node made for the path. *)
Theorem deleted_entry_dropped
        fuel nodeID dir path repo curTree pre f post tb' tree' treeJSON :
  (forall n, io_fault n = false) ->
  trees repo !! nodeID = Some curTree ->
  Nodes curTree = pre ++ f :: post ->
  GoStrings.HasPrefix path dir = true -> path <> "" ->
  Forall (plain_node dir [(path, false)]) pre ->
  Forall (plain_node dir [(path, false)]) post ->
  (dir ++ Name f)%string = path ->
  fs path = StatNotExist ->
  copyNodes (pre ++ post) NewTreeJSONBuilder (NewTree 0) = Ok (tb', tree') ->
  Finalize tb' = Ok treeJSON ->
  exists repo',
    makeTree (S fuel) nodeID dir [path] repo = Some (repo', Ok (hashTree tree')) /\
    journal repo' = journal repo ++ [OpLoadTree nodeID; OpSaveTree tree';
                                     OpSaveUnpacked treeJSON] /\
    (forall x, In x (Nodes tree') <-> In x (pre ++ post)) /\
    strictly_sorted (Nodes tree').
Proof.
  intros Hio Hload Hnodes Hpre Hne Hplain Hpost Hhit Hfs Hcopy Hfin.
  eapply makeTree_one; eauto.
  intros tb tree repo1. rewrite Hnodes. apply rangeNodes_deleted; assumption.
Qed.

(** Insertion.  The change-path names no node, is on disk, lies in
    the directory of the node [n] and sorts before it; the nodes before
    [n] are no directories and let the path pass.  With a working
    storage and no clash of names the saved tree, whose hash is
    returned, holds the nodes before [n], the node made from the file
    system, and [n] and the nodes after it carried over. *)
Theorem new_entry_inserted_before
        fuel nodeID dir path repo curTree pre n post fi tb' tree' treeJSON :
  (forall k, io_fault k = false) ->
  trees repo !! nodeID = Some curTree ->
  Nodes curTree = pre ++ n :: post ->
  GoStrings.HasPrefix path dir = true -> path <> "" ->
  Forall (plain_node dir [(path, false)]) pre ->
  (dir ++ Name n)%string <> path -> sorts_before dir n path = true ->
  fs path = StatInfo fi -> fi_extra_ok fi = true ->
  copyNodes (pre ++ fresh_node path fi :: map carry (n :: post))
            NewTreeJSONBuilder (NewTree 0) = Ok (tb', tree') ->
  Finalize tb' = Ok treeJSON ->
  exists repo',
    makeTree (S fuel) nodeID dir [path] repo = Some (repo', Ok (hashTree tree')) /\
    journal repo' = journal repo ++ [OpLoadTree nodeID; OpSaveTree tree';
                                     OpSaveUnpacked treeJSON] /\
    (forall x, In x (Nodes tree') <->
               In x (pre ++ fresh_node path fi :: map carry (n :: post))) /\
    strictly_sorted (Nodes tree').
Proof.
  intros Hio Hload Hnodes Hpre Hne Hplain Hhit Hsort Hfs Hok Hcopy Hfin.
  eapply makeTree_one; eauto.
  intros tb tree repo1. rewrite Hnodes. apply rangeNodes_inserted; assumption.
Qed.

(** A path that no node takes up.  No prior node is a directory and
    every change-path that begins with the prefix and is not blank
    passes every prior node (it names none and sorts before none).
    Then no path is looked up on disk and none is added: with a working
    storage the saved tree holds exactly the prior nodes, whether the
    paths exist or not. *)
Theorem unmatched_paths_not_added
        fuel nodeID dir path paths repo curTree tb' tree' treeJSON :
  (forall n, io_fault n = false) ->
  trees repo !! nodeID = Some curTree ->
  Forall (plain_node dir (initial_marks dir (path :: paths))) (Nodes curTree) ->
  copyNodes (Nodes curTree) NewTreeJSONBuilder (NewTree 0) = Ok (tb', tree') ->
  Finalize tb' = Ok treeJSON ->
  exists repo',
    makeTree (S fuel) nodeID dir (path :: paths) repo
    = Some (repo', Ok (hashTree tree')) /\
    journal repo' = journal repo ++ [OpLoadTree nodeID; OpSaveTree tree';
                                     OpSaveUnpacked treeJSON] /\
    (forall x, In x (Nodes tree') <-> In x (Nodes curTree)).
Proof.
  intros Hio Hload Hplain Hcopy Hfin.
  destruct (makeTree_copy fuel nodeID dir path paths repo curTree
              (log_op (OpLoadTree nodeID) repo) (Nodes curTree) tb' tree' treeJSON
              Hio Hload) as (repo' & Hres & Hj & Hin & Hs); [|exact Hcopy|exact Hfin|].
  - apply rangeNodes_passed. exact Hplain.
  - exists repo'. split; [exact Hres|]. split; [|exact Hin].
    rewrite Hj. simpl. rewrite <- app_assoc. reflexivity.
Qed.

(** The subtree identifier a directory node is merged from. *)
Lemma rangeNodes_directory fuel dir path pre d post tb tree repo repo2 newID
      tb1 tree1 tail :
  Forall (plain_node dir [(path, false)]) pre ->
  Forall (plain_node dir [(path, false)]) post ->
  NodeType d = "dir" -> path <> "" -> passes dir d path = true ->
  copyNodes pre tb tree = Ok (tb1, tree1) ->
  makeTree fuel (match Subtree d with Some id => id | None => ID_zero end)
           (dir ++ Name d ++ "/")%string [path] repo = Some (repo2, Ok newID) ->
  (forall tb2 tree2,
      match post with
      | [] => appendRemaining dir d [path] tb2 tree2
      | _ :: _ => Ok (tb2, tree2)
      end = copyNodes tail tb2 tree2) ->
  rangeNodes (makeTree fuel) dir (pre ++ d :: post) [(path, false)] tb tree repo
  = Some (repo2, copyNodes (pre ++ set_Subtree d newID :: tail ++ post) tb tree).
Proof.
  intros Hpre Hpost Hty Hne Hpass Hcopy Hrec Htail.
  rewrite (rangeNodes_plain _ _ _ _ _ Hpre), copyNodes_app, Hcopy. cbn [bindR].
  cbn [rangeNodes copyNodes]. unfold bindM at 1, pure.
  rewrite (scanPaths_passes dir d [(path, false)]).
  2:{ intros q [Hq|[]] _. inversion Hq; subst. exact Hpass. }
  apply String.eqb_eq in Hty. rewrite Hty. cbn [negb].
  change (make_keys [(path, false)]) with [path].
  unfold bindM at 1. rewrite Hrec. unfold bindM at 1.
  destruct (Tree_Insert tree1 (set_Subtree d newID)) as [tree2|e]; [|reflexivity].
  cbn [bindR]. unfold bindM at 1.
  destruct (AddNode tb1 (set_Subtree d newID)) as [tb2|e]; [|reflexivity].
  cbn [bindR]. unfold bindM at 1. rewrite Htail, copyNodes_app.
  destruct (copyNodes tail tb2 tree2) as [[tb3 tree3]|e]; [|reflexivity].
  cbn [bindR]. apply rangeNodes_passed. exact Hpost.
Qed.


(** Addition at the end.  The last prior node [d] is a directory, the
    change-path passes it, lies in its directory and is on disk; the
    nodes before [d] are no directories and let the path pass.  After
    the subtree of [d] was merged, returning [newID], the node made for
    the path is added: the saved tree holds the nodes before [d], [d]
    with subtree [newID], and the new node. *)
Theorem new_entry_added_after_last_directory
        fuel nodeID dir path repo curTree pre d fi repo2 newID tb' tree' treeJSON :
  (forall n, io_fault n = false) ->
  trees repo !! nodeID = Some curTree ->
  Nodes curTree = pre ++ [d] ->
  GoStrings.HasPrefix path dir = true -> path <> "" ->
  Forall (plain_node dir [(path, false)]) pre ->
  NodeType d = "dir" -> passes dir d path = true ->
  String.eqb (filepath.Dir (dir ++ Name d)) (filepath.Dir path) = true ->
  fs path = StatInfo fi -> fi_extra_ok fi = true ->
  makeTree fuel (match Subtree d with Some id => id | None => ID_zero end)
           (dir ++ Name d ++ "/")%string [path] (log_op (OpLoadTree nodeID) repo)
  = Some (repo2, Ok newID) ->
  copyNodes (pre ++ [set_Subtree d newID; fresh_node path fi])
            NewTreeJSONBuilder (NewTree 0) = Ok (tb', tree') ->
  Finalize tb' = Ok treeJSON ->
  exists repo',
    makeTree (S fuel) nodeID dir [path] repo = Some (repo', Ok (hashTree tree')) /\
    journal repo' = journal repo2 ++ [OpSaveTree tree'; OpSaveUnpacked treeJSON] /\
    (forall x, In x (Nodes tree') <->
               In x (pre ++ [set_Subtree d newID; fresh_node path fi])) /\
    strictly_sorted (Nodes tree').
Proof.
  intros Hio Hload Hnodes Hpre Hne Hplain Hty Hpass Hdir Hfs Hok Hrec Hcopy Hfin.
  eapply makeTree_copy; eauto.
  rewrite (initial_marks_one _ _ Hpre), Hnodes.
  assert (Hc : exists tb1 tree1,
             copyNodes pre NewTreeJSONBuilder (NewTree 0) = Ok (tb1, tree1)).
  { rewrite copyNodes_app in Hcopy.
    destruct (copyNodes pre NewTreeJSONBuilder (NewTree 0)) as [[tb1 tree1]|e];
      [eauto|discriminate]. }
  destruct Hc as (tb1 & tree1 & Hc).
  rewrite (rangeNodes_directory fuel dir path pre d [] _ _ _ repo2 newID tb1 tree1
             [fresh_node path fi]); try assumption; [reflexivity|constructor|].
  intros tb2 tree2. cbn [appendRemaining]. rewrite Hdir.
  rewrite (addNode_copy _ _ _ _ Hfs Hok).
  destruct (copyNodes [fresh_node path fi] tb2 tree2) as [[tb3 tree3]|e]; reflexivity.
Qed.

(** *** Several change-paths at one node *)


Lemma insert_node_again node nodes nodes' :
  insert_node node nodes = Ok nodes' ->
  insert_node node nodes' = Err (ErrDuplicate (Name node)).
Proof.
  revert nodes'. induction nodes as [|m rest IH]; simpl; intros nodes' H.
  - inversion H; subst. simpl. rewrite ltb_irrefl, String.eqb_refl. reflexivity.
  - destruct (String.ltb (Name node) (Name m)) eqn:Hlt.
    + inversion H; subst. simpl. rewrite ltb_irrefl, String.eqb_refl. reflexivity.
    + destruct (String.eqb (Name node) (Name m)) eqn:Heq; [discriminate|].
      destruct (insert_node node rest) as [rest'|] eqn:E; simpl in H; [|discriminate].
      inversion H; subst. simpl. rewrite Hlt, Heq, (IH _ eq_refl). reflexivity.
Qed.

(** A change-path listed twice.  The list begins with the same path
    twice; the path is on disk and is taken up at the node [n] (it
    names [n], or lies in its directory and sorts before it); the nodes
    before [n] are no directories and let all paths pass.  If the first
    insertion succeeds, the second one fails: the merge returns the
    duplicate-entry error for the base name of the path and saves
    nothing. *)
Theorem repeated_path_is_duplicate
        fuel nodeID dir path more repo curTree pre n post fi tb1 tree1 tree2 tb2 :
  io_fault (length (journal repo)) = false ->
  trees repo !! nodeID = Some curTree ->
  Nodes curTree = pre ++ n :: post ->
  GoStrings.HasPrefix path dir = true -> path <> "" ->
  Forall (plain_node dir (initial_marks dir (path :: path :: more))) pre ->
  String.eqb (dir ++ Name n) path || sorts_before dir n path = true ->
  fs path = StatInfo fi -> fi_extra_ok fi = true ->
  copyNodes pre NewTreeJSONBuilder (NewTree 0) = Ok (tb1, tree1) ->
  Tree_Insert tree1 (fresh_node path fi) = Ok tree2 ->
  AddNode tb1 (fresh_node path fi) = Ok tb2 ->
  makeTree (S fuel) nodeID dir (path :: path :: more) repo
  = Some (log_op (OpLoadTree nodeID) repo, Err (ErrDuplicate (filepath.Base path))).
Proof.
  intros Hio Hload Hnodes Hpre Hne Hplain Htaken Hfs Hok Hcopy Hins Hadd.
  rewrite makeTree_unfold. unfold bindM at 1, LoadTree. rewrite Hio, Hload.
  unfold bindM at 1. rewrite Hnodes.
  rewrite (rangeNodes_plain _ _ _ _ _ Hplain). unfold NewTree in *. rewrite Hcopy.
  rewrite (rangeNodes_error _ _ _ _ _ _ _ (ErrDuplicate (filepath.Base path)));
    [reflexivity|].
  unfold initial_marks. cbn [map]. rewrite Hpre. cbn [negb scanPaths].
  apply String.eqb_neq in Hne. rewrite Hne.
  assert (Hstat : IsNotExist (os_Stat fs path) = false)
    by (unfold os_Stat; rewrite Hfs; reflexivity).
  rewrite Hstat, andb_false_r.
  assert (H1 : addNode path tb1 tree1 = Ok (tb2, tree2)).
  { apply (addNode_fresh _ fi); assumption. }
  assert (H2 : addNode path tb2 tree2 = Err (ErrDuplicate (filepath.Base path))).
  { unfold addNode, os_Stat, NodeFromFileInfo. rewrite Hfs. cbn [bindR]. rewrite Hok.
    cbn [bindR]. unfold Tree_Insert in *.
    destruct (insert_node (fresh_node path fi) (Nodes tree1)) as [l|e] eqn:E;
      [|discriminate].
    cbn [bindR] in Hins. inversion Hins; subst. cbn [Nodes].
    rewrite (insert_node_again _ _ _ E). reflexivity. }
  destruct (String.eqb (dir ++ Name n) path); cbn [orb] in *.
  - rewrite H1. cbn [bindR]. rewrite H2. reflexivity.
  - rewrite Htaken, H1. cbn [bindR]. rewrite H2. reflexivity.
Qed.

(** *** A tree that is only copied *)

Lemma insert_node_last node nodes :
  Forall (fun m => name_lt m node) nodes ->
  insert_node node nodes = Ok (nodes ++ [node]).
Proof.
  induction 1 as [|m rest Hm Hall IH]; [reflexivity|].
  simpl. unfold name_lt in Hm.
  assert (Hlt : String.ltb (Name node) (Name m) = false).
  { destruct (String.ltb (Name node) (Name m)) eqn:E; [|reflexivity].
    pose proof (ltb_trans _ _ _ Hm E) as Hbad. rewrite ltb_irrefl in Hbad. discriminate. }
  assert (Heq : String.eqb (Name node) (Name m) = false).
  { apply String.eqb_neq. intros Heq. rewrite Heq, ltb_irrefl in Hm. discriminate. }
  rewrite Hlt, Heq, IH. reflexivity.
Qed.

Lemma strictly_sorted_app_last acc n l :
  strictly_sorted (acc ++ n :: l) -> Forall (fun m => name_lt m n) acc.
Proof.
  induction acc as [|a acc IH]; simpl; intros Hs; [constructor|].
  destruct (StronglySorted_inv Hs) as [Hs' Hall]. constructor; [|apply IH; exact Hs'].
  rewrite List.Forall_forall in Hall. apply Hall. apply in_or_app. right. left. reflexivity.
Qed.

Lemma copyNodes_of_sorted l :
  forall acc tb tb' tree',
    strictly_sorted (acc ++ l) ->
    copyNodes l tb {| Nodes := acc |} = Ok (tb', tree') ->
    tree' = {| Nodes := acc ++ l |}.
Proof.
  induction l as [|n l IH]; intros acc tb tb' tree' Hs H.
  - inversion H; subst. rewrite app_nil_r. reflexivity.
  - cbn [copyNodes] in H. unfold Tree_Insert in H. cbn [Nodes] in H.
    rewrite (insert_node_last n acc (strictly_sorted_app_last _ _ _ Hs)) in H.
    cbn [bindR] in H. destruct (AddNode tb n) as [tb1|e]; [|discriminate].
    cbn [bindR] in H. apply IH in H.
    + rewrite H, <- app_assoc. reflexivity.
    + rewrite <- app_assoc. exact Hs.
Qed.

Lemma carry_has_subtree node : has_subtree node -> carry node = node.
Proof.
  unfold has_subtree, carry. intros H.
  destruct (String.eqb (NodeType node) "dir") eqn:E; [|reflexivity].
  apply String.eqb_eq in E. specialize (H E).
  destruct node as [nm ty md mt sz ct [id|]]; [reflexivity|]. simpl in H. congruence.
Qed.

(** A well-formed tree comes back under its own identifier.  No
    change-path begins with the prefix, the prior tree is strictly
    sorted, its directory entries have subtrees, and its identifier is
    its hash.  With a working storage and a builder that accepts its
    nodes, the merge loads the tree, saves the very same tree, returns
    the identifier it was given and leaves the stored trees as they
    were. *)
Theorem wellformed_tree_keeps_identifier
        fuel nodeID dir path paths repo curTree tb' tree' treeJSON :
  (forall n, io_fault n = false) ->
  trees repo !! nodeID = Some curTree ->
  (forall p, In p (path :: paths) -> GoStrings.HasPrefix p dir = false) ->
  strictly_sorted (Nodes curTree) ->
  Forall (has_subtree) (Nodes curTree) ->
  hashTree curTree = nodeID ->
  copyNodes (Nodes curTree) NewTreeJSONBuilder (NewTree 0) = Ok (tb', tree') ->
  Finalize tb' = Ok treeJSON ->
  tree' = curTree /\
  makeTree (S fuel) nodeID dir (path :: paths) repo
  = Some ({| trees := trees repo; packs := packs repo ++ [treeJSON];
             journal := journal repo ++ [OpLoadTree nodeID; OpSaveTree curTree;
                                         OpSaveUnpacked treeJSON] |},
          Ok nodeID).
Proof.
  intros Hio Hload Hout Hs Hsub Hhash Hcopy Hfin.
  assert (Htree : tree' = curTree).
  { apply (copyNodes_of_sorted _ [] _ _ _ Hs) in Hcopy. rewrite Hcopy.
    destruct curTree. reflexivity. }
  split; [exact Htree|]. subst tree'.
  assert (Hcarry : map carry (Nodes curTree) = Nodes curTree).
  { clear -Hsub. induction Hsub as [|n l Hn Hl IH]; [reflexivity|].
    simpl. rewrite (carry_has_subtree _ Hn), IH. reflexivity. }
  rewrite makeTree_unfold. unfold bindM at 1, LoadTree. rewrite Hio, Hload.
  unfold bindM at 1.
  rewrite (rangeNodes_marked _ _ _ _ (initial_marks_all_marked _ _ Hout)), Hcarry.
  unfold NewTree in *. rewrite Hcopy.
  unfold bindM at 1, pure. rewrite Hfin.
  unfold bindM at 1, SaveTree. rewrite Hio, Hhash. cbn [trees log_op]. rewrite Hload.
  unfold bindM, SaveUnpacked, retM. rewrite Hio. cbn [trees packs journal log_op].
  rewrite <- !app_assoc. reflexivity.
Qed.

(** The recursion is bounded.  Whatever the repository holds, also
    trees that refer to each other in a circle, [makeTree] comes to an
    end within a depth of [enough_fuel dir includePaths], which depends
    only on the longest change-path and the prefix: a deeper bound does
    not change the outcome. *)
Theorem makeTree_recursion_bounded nodeID dir includePaths repo extra :
  exists outcome,
    makeTree (enough_fuel dir includePaths) nodeID dir includePaths repo = Some outcome /\
    makeTree (enough_fuel dir includePaths + extra) nodeID dir includePaths repo
    = Some outcome.
Proof.
  destruct (makeTree_returns (enough_fuel dir includePaths) nodeID dir includePaths repo)
    as [outcome H]; [lia|].
  exists outcome. split; [exact H|].
  eapply makeTree_fuel_le; [|exact H]. lia.
Qed.

End Merge.

Section CommandProperties.

Variable fs : string -> StatResult.
Variable TreeJSONBuilder : Type.
Variable NewTreeJSONBuilder : TreeJSONBuilder.
Variable AddNode : TreeJSONBuilder -> Node -> result TreeJSONBuilder.
Variable Finalize : TreeJSONBuilder -> result bytes.
Variable hashTree : Tree -> ID.
Variable io_fault : nat -> bool.
Variable readPatternsFromFiles : list string -> result (list string).
Variable ValidatePatterns : list string -> bool.
Variable snapshotMetadataArgs : Type.
Variable metadata_empty : snapshotMetadataArgs -> bool.
Variable open_result : result unit.
Variable index_result : result unit.
Variable latest : result Snapshot.
Variable flush_result : result unit.
Variable now : Z.
Variable new_snapshot_error : option error.
Variable save_snapshot_result : result ID.

Local Abbreviation runIncremental :=
  (runIncremental fs TreeJSONBuilder NewTreeJSONBuilder AddNode Finalize hashTree io_fault
                  readPatternsFromFiles ValidatePatterns snapshotMetadataArgs
                  metadata_empty open_result index_result latest flush_result now
                  new_snapshot_error save_snapshot_result).

Local Abbreviation GetPaths :=
  (GetPathsFromPatterns readPatternsFromFiles ValidatePatterns).
Local Abbreviation merge_root :=
  (makeTree fs TreeJSONBuilder NewTreeJSONBuilder AddNode Finalize hashTree io_fault).

(** The ways out of the command once the lock is held, with the
    events of each and the snapshot that is saved for the latest
    snapshot [sn] and the new root tree. *)
Lemma runIncremental_cases (opts : IncrementalOptions snapshotMetadataArgs) (w : World) :
  Empty (include_options _ opts) && metadata_empty (Metadata _ opts) = false ->
  open_result = Ok tt ->
  exists w' r mid,
    runIncremental opts w = Some (w', r) /\
    w_events w' = w_events w ++ EvOpenWithAppendLock :: mid ++ [EvUnlock] /\
    ((* the index could not be loaded *)
     (exists e, index_result = Err e /\ r = Err e /\ mid = [EvLoadIndex] /\
                w_repo w' = w_repo w) \/
     (* no snapshot was found *)
     (exists e, latest = Err e /\ r = Err e /\ mid = [EvLoadIndex; EvFindLatest] /\
                w_repo w' = w_repo w) \/
     (* the include options could not be read *)
     (exists e, GetPaths (include_options _ opts) = Err e /\ r = Err e /\
                mid = [EvLoadIndex; EvFindLatest; EvStartPackUploader] /\
                w_repo w' = w_repo w) \/
     (exists sn paths repo,
         latest = Ok sn /\ GetPaths (include_options _ opts) = Ok paths /\
         w_repo w' = repo /\
         ((* the merge failed *)
          (exists e,
              merge_root (enough_fuel "/" (GoStrings.Strings paths)) (SnapshotTree sn) "/"
                         (GoStrings.Strings paths) (w_repo w) = Some (repo, Err e) /\
              r = Err e /\ mid = [EvLoadIndex; EvFindLatest; EvStartPackUploader]) \/
          (exists treeID,
              merge_root (enough_fuel "/" (GoStrings.Strings paths)) (SnapshotTree sn) "/"
                         (GoStrings.Strings paths) (w_repo w) = Some (repo, Ok treeID) /\
              ((* the flush failed *)
               (exists e, flush_result = Err e /\ r = Err e /\
                          mid = [EvLoadIndex; EvFindLatest; EvStartPackUploader;
                                 EvFlush]) \/
               (* the new snapshot could not be made *)
               (exists e, flush_result = Ok tt /\ new_snapshot_error = Some e /\
                          r = Err e /\
                          mid = [EvLoadIndex; EvFindLatest; EvStartPackUploader;
                                 EvFlush]) \/
               (* the snapshot was handed to the repository *)
               (flush_result = Ok tt /\ new_snapshot_error = None /\
                r = match save_snapshot_result with Ok _ => Ok tt | Err e => Err e end /\
                mid = [EvLoadIndex; EvFindLatest; EvStartPackUploader; EvFlush;
                       EvSaveSnapshot {| Paths := Paths sn; Tags := Tags sn;
                                         Hostname := Hostname sn; SnapshotTime := now;
                                         SnapshotTree := treeID |}])))))).
Proof.
  intros Hguard Hopen. unfold runIncremental, runLocked, NewSnapshot.
  rewrite Hguard, Hopen.
  destruct index_result as [[]|e] eqn:Hindex.
  2:{ eexists _, _, [EvLoadIndex]. split; [reflexivity|].
      cbn [emit w_events w_repo]. rewrite <- !app_assoc. split; [reflexivity|].
      left. exists e. auto. }
  destruct latest as [sn|e] eqn:Hlatest.
  2:{ eexists _, _, [EvLoadIndex; EvFindLatest]. split; [reflexivity|].
      cbn [emit w_events w_repo]. rewrite <- !app_assoc. split; [reflexivity|].
      right. left. exists e. auto. }
  destruct (GetPaths (include_options _ opts)) as [paths|e] eqn:Hpaths.
  2:{ eexists _, _, [EvLoadIndex; EvFindLatest; EvStartPackUploader].
      split; [reflexivity|].
      cbn [emit w_events w_repo]. rewrite <- !app_assoc. split; [reflexivity|].
      right. right. left. exists e. auto. }
  cbn [emit w_events w_repo].
  destruct (makeTree_returns fs TreeJSONBuilder NewTreeJSONBuilder AddNode Finalize
              hashTree io_fault (enough_fuel "/" (GoStrings.Strings paths))
              (SnapshotTree sn) "/" (GoStrings.Strings paths) (w_repo w) (le_n _))
    as [[repo [treeID|e]] Hmerge]; rewrite Hmerge.
  2:{ eexists _, _, [EvLoadIndex; EvFindLatest; EvStartPackUploader].
      split; [reflexivity|].
      cbn [emit w_events w_repo]. rewrite <- !app_assoc. split; [reflexivity|].
      right. right. right. exists sn, paths, repo. repeat split.
      left. exists e. auto. }
  destruct flush_result as [[]|e] eqn:Hflush.
  2:{ eexists _, _, [EvLoadIndex; EvFindLatest; EvStartPackUploader; EvFlush].
      split; [reflexivity|].
      cbn [emit w_events w_repo]. rewrite <- !app_assoc. split; [reflexivity|].
      right. right. right. exists sn, paths, repo. repeat split.
      right. exists treeID. split; [exact Hmerge|]. left. exists e. auto. }
  destruct new_snapshot_error as [e|] eqn:Hnew.
  { eexists _, _, [EvLoadIndex; EvFindLatest; EvStartPackUploader; EvFlush].
    split; [reflexivity|].
    cbn [emit w_events w_repo]. rewrite <- !app_assoc. split; [reflexivity|].
    right. right. right. exists sn, paths, repo. repeat split.
    right. exists treeID. split; [exact Hmerge|]. right. left. exists e. auto. }
  cbn [set_SnapshotTree Paths Tags Hostname SnapshotTime SnapshotTree].
  destruct save_snapshot_result as [sid|e] eqn:Hsave.
  - eexists _, _, [EvLoadIndex; EvFindLatest; EvStartPackUploader; EvFlush;
                   EvSaveSnapshot _].
    split; [reflexivity|].
    cbn [emit w_events w_repo]. rewrite <- !app_assoc. split; [reflexivity|].
    right. right. right. exists sn, paths, repo. repeat split.
    right. exists treeID. split; [exact Hmerge|]. right. right. auto.
  - eexists _, _, [EvLoadIndex; EvFindLatest; EvStartPackUploader; EvFlush;
                   EvSaveSnapshot _].
    split; [reflexivity|].
    cbn [emit w_events w_repo]. rewrite <- !app_assoc. split; [reflexivity|].
    right. right. right. exists sn, paths, repo. repeat split.
    right. exists treeID. split; [exact Hmerge|]. right. right. auto.
Qed.


(** The lock is released.  Once the guard is passed and the
    repository is opened and locked, the command comes to an end, and
    whatever it returns, the events it adds begin with the opening and
    end with the one unlock. *)
Theorem lock_is_released (opts : IncrementalOptions snapshotMetadataArgs) (w : World) :
  Empty (include_options _ opts) && metadata_empty (Metadata _ opts) = false ->
  open_result = Ok tt ->
  exists w' r mid,
    runIncremental opts w = Some (w', r) /\
    w_events w' = w_events w ++ EvOpenWithAppendLock :: mid ++ [EvUnlock] /\
    ~ In EvUnlock mid /\ ~ In EvOpenWithAppendLock mid.
Proof.
  intros Hguard Hopen.
  destruct (runIncremental_cases opts w Hguard Hopen) as (w' & r & mid & Hrun & Hev & Hc).
  exists w', r, mid. split; [exact Hrun|]. split; [exact Hev|].
  assert (Hmid : forall ev, In ev mid ->
                            ev <> EvUnlock /\ ev <> EvOpenWithAppendLock).
  { intros ev Hin.
    destruct Hc as [(e & _ & _ & -> & _)|[(e & _ & _ & -> & _)|[(e & _ & _ & -> & _)|
                   (sn & paths & repo & _ & _ & _ &
                    [(e & _ & _ & ->)|(treeID & _ &
                      [(e & _ & _ & ->)|[(e & _ & _ & _ & ->)|(_ & _ & _ & ->)]])])]]];
      simpl in Hin; intuition (subst; discriminate). }
  split; intros Hin; apply Hmid in Hin; tauto.
Qed.

(** No snapshot without a merged and flushed tree.  Every snapshot
    the command saves follows a merge that returned a tree identifier,
    a flush that succeeded and a new snapshot that could be made, in
    this order; it has the paths, tags and hostname of the latest
    snapshot, the current time, and that identifier as its tree. *)
Theorem snapshot_only_after_merge_and_flush
        (opts : IncrementalOptions snapshotMetadataArgs) (w w' : World) r s :
  runIncremental opts w = Some (w', r) ->
  In (EvSaveSnapshot s) (w_events w') ->
  In (EvSaveSnapshot s) (w_events w) \/
  exists sn paths treeID,
    latest = Ok sn /\ GetPaths (include_options _ opts) = Ok paths /\
    merge_root (enough_fuel "/" (GoStrings.Strings paths)) (SnapshotTree sn) "/"
               (GoStrings.Strings paths) (w_repo w) = Some (w_repo w', Ok treeID) /\
    flush_result = Ok tt /\
    new_snapshot_error = None /\
    s = {| Paths := Paths sn; Tags := Tags sn; Hostname := Hostname sn;
           SnapshotTime := now; SnapshotTree := treeID |} /\
    w_events w' = w_events w ++ [EvOpenWithAppendLock; EvLoadIndex; EvFindLatest;
                                 EvStartPackUploader; EvFlush; EvSaveSnapshot s;
                                 EvUnlock].
Proof.
  intros Hrun Hin.
  destruct (Empty (include_options _ opts) && metadata_empty (Metadata _ opts)) eqn:Hguard.
  { unfold runIncremental in Hrun. rewrite Hguard in Hrun. inversion Hrun; subst. auto. }
  assert (Hcase : open_result = Ok tt \/ exists e, open_result = Err e)
    by (destruct open_result as [[]|e]; eauto).
  destruct Hcase as [Hopen|[e Hopen]].
  2:{ unfold runIncremental in Hrun. rewrite Hguard, Hopen in Hrun. inversion Hrun; subst.
      simpl in Hin. apply in_app_or in Hin. destruct Hin as [Hin|[Hin|[]]]; [auto|].
      discriminate. }
  destruct (runIncremental_cases opts w Hguard Hopen)
    as (w1 & r1 & mid & Hrun1 & Hev & Hc).
  rewrite Hrun in Hrun1. inversion Hrun1; subst w1 r1. clear Hrun1.
  rewrite Hev in Hin. apply in_app_or in Hin. destruct Hin as [Hin|Hin]; [auto|].
  assert (Hmid : In (EvSaveSnapshot s) mid).
  { destruct Hin as [Hin|Hin]; [discriminate|].
    apply in_app_or in Hin. destruct Hin as [Hin|[Hin|[]]]; [exact Hin|discriminate]. }
  right.
  destruct Hc as [(e & _ & _ & -> & _)|[(e & _ & _ & -> & _)|[(e & _ & _ & -> & _)|
                 (sn & paths & repo & Hl & Hp & Hrepo &
                  [(e & _ & _ & ->)|(treeID & Hm &
                    [(e & _ & _ & ->)|[(e & _ & _ & _ & ->)|(Hf & Hn & _ & ->)]])])]]];
    simpl in Hmid; try (intuition discriminate).
  destruct Hmid as [H|[H|[H|[H|[H|[]]]]]]; try discriminate.
  inversion H; subst s. exists sn, paths, treeID. rewrite Hrepo.
  repeat split; assumption.
Qed.

(** The command keeps the prior snapshot's data.  The command always
    comes to an end, and whatever it returns, every tree object that was
    stored before is stored unchanged afterwards. *)
Theorem command_keeps_prior_trees
        (opts : IncrementalOptions snapshotMetadataArgs) (w : World) :
  exists w' r,
    runIncremental opts w = Some (w', r) /\
    forall id t, trees (w_repo w) !! id = Some t -> trees (w_repo w') !! id = Some t.
Proof.
  destruct (Empty (include_options _ opts) && metadata_empty (Metadata _ opts)) eqn:Hguard.
  { unfold runIncremental. rewrite Hguard. eexists _, _. split; [reflexivity|auto]. }
  assert (Hcase : open_result = Ok tt \/ exists e, open_result = Err e)
    by (destruct open_result as [[]|e]; eauto).
  destruct Hcase as [Hopen|[e Hopen]].
  2:{ unfold runIncremental. rewrite Hguard, Hopen. eexists _, _.
      split; [reflexivity|auto]. }
  destruct (runIncremental_cases opts w Hguard Hopen)
    as (w' & r & mid & Hrun & Hev & Hc).
  exists w', r. split; [exact Hrun|].
  destruct Hc as [(e & _ & _ & _ & ->)|[(e & _ & _ & _ & ->)|[(e & _ & _ & _ & ->)|
                 (sn & paths & repo & _ & _ & -> & Hm)]]]; auto.
  assert (Hrun' : exists r', merge_root (enough_fuel "/" (GoStrings.Strings paths))
                                        (SnapshotTree sn) "/" (GoStrings.Strings paths)
                                        (w_repo w) = Some (repo, r')).
  { destruct Hm as [(e & Hm & _)|(treeID & Hm & _)]; eauto. }
  destruct Hrun' as [r' Hrun'].
  apply makeTree_run, run_preserves in Hrun'. apply Hrun'.
Qed.

(** Nothing to merge.  The guard is passed (an include file or new
    metadata was given) but no change-path comes out of the include
    options, and opening, the index, the latest snapshot, the flush and
    the saving succeed.  Then the command makes no call on the tree
    storage.  If the new snapshot cannot be made, the command returns
    that error after the flush and saves no snapshot; otherwise it
    saves a snapshot whose tree is the tree of the latest snapshot. *)
Theorem empty_path_list_copies_snapshot
        (opts : IncrementalOptions snapshotMetadataArgs) (w : World) sn sid :
  Empty (include_options _ opts) && metadata_empty (Metadata _ opts) = false ->
  open_result = Ok tt -> index_result = Ok tt -> latest = Ok sn ->
  GetPaths (include_options _ opts) = Ok [] ->
  flush_result = Ok tt -> save_snapshot_result = Ok sid ->
  runIncremental opts w
  = match new_snapshot_error with
    | Some e =>
      Some ({| w_repo := w_repo w;
               w_events := w_events w
                           ++ [EvOpenWithAppendLock; EvLoadIndex; EvFindLatest;
                               EvStartPackUploader; EvFlush; EvUnlock] |},
            Err e)
    | None =>
      Some ({| w_repo := w_repo w;
               w_events := w_events w
                           ++ [EvOpenWithAppendLock; EvLoadIndex; EvFindLatest;
                               EvStartPackUploader; EvFlush;
                               EvSaveSnapshot {| Paths := Paths sn; Tags := Tags sn;
                                                 Hostname := Hostname sn;
                                                 SnapshotTime := now;
                                                 SnapshotTree := SnapshotTree sn |};
                               EvUnlock] |},
            Ok tt)
    end.
Proof.
  intros Hguard Hopen Hindex Hlatest Hpaths Hflush Hsave.
  unfold runIncremental, runLocked, NewSnapshot.
  rewrite Hguard, Hopen, Hindex, Hlatest, Hpaths, Hflush, Hsave.
  cbn [GoStrings.Strings]. rewrite makeTree_nil.
  destruct new_snapshot_error as [e|];
    unfold emit; cbn [w_events w_repo set_SnapshotTree Paths Tags Hostname SnapshotTime];
    rewrite <- !app_assoc; reflexivity.
Qed.

End CommandProperties.

Section PatternProperties.

Variable readPatternsFromFiles : list string -> result (list string).
Variable ValidatePatterns : list string -> bool.
Variable ToLower : string -> string.
Variable ListWithChild : list string -> string -> bool * bool.

Local Abbreviation GetPathsFromPatterns :=
  (GetPathsFromPatterns readPatternsFromFiles ValidatePatterns).
Local Abbreviation CollectPatterns :=
  (CollectPatterns readPatternsFromFiles ValidatePatterns ToLower ListWithChild).
Local Abbreviation includeByPattern := (includeByPattern ListWithChild).
Local Abbreviation includeByInsensitivePattern :=
  (includeByInsensitivePattern ToLower ListWithChild).

(** The patterns of one pair of options: the direct ones, then those
    read from the files, which must be valid. *)
Lemma gathered direct files label (r : result (list string)) :
  (if Nat.ltb 0 (length files) then
     let* includePatterns := readPatternsFromFiles files in
     if ValidatePatterns includePatterns
     then Ok (direct ++ includePatterns)
     else Err (ErrFatal label)
   else Ok direct) = r ->
  forall l, r = Ok l ->
    exists fromFiles,
      l = direct ++ fromFiles /\
      match files with
      | [] => fromFiles = []
      | _ :: _ => readPatternsFromFiles files = Ok fromFiles /\
                  ValidatePatterns fromFiles = true
      end.
Proof.
  intros <- l H. destruct files as [|f files]; simpl in H.
  - inversion H; subst. exists []. rewrite app_nil_r. auto.
  - destruct (readPatternsFromFiles (f :: files)) as [ps|e]; simpl in H; [|discriminate].
    destruct (ValidatePatterns ps) eqn:Ev; [|discriminate].
    inversion H; subst. exists ps. auto.
Qed.

(** The order of the change-paths.  When [GetPathsFromPatterns]
    succeeds, its list is the direct includes, the patterns of the
    include files, the direct case-insensitive includes and the
    patterns of the case-insensitive include files, in this order and
    as they were given; only the patterns read from files were
    validated. *)
Theorem GetPathsFromPatterns_order opts paths :
  GetPathsFromPatterns opts = Ok paths ->
  exists fromFiles fromInsensitiveFiles,
    paths = Includes opts ++ fromFiles
            ++ InsensitiveIncludes opts ++ fromInsensitiveFiles /\
    match IncludeFiles opts with
    | [] => fromFiles = []
    | _ :: _ => readPatternsFromFiles (IncludeFiles opts) = Ok fromFiles /\
                ValidatePatterns fromFiles = true
    end /\
    match InsensitiveIncludeFiles opts with
    | [] => fromInsensitiveFiles = []
    | _ :: _ => readPatternsFromFiles (InsensitiveIncludeFiles opts)
                = Ok fromInsensitiveFiles /\
                ValidatePatterns fromInsensitiveFiles = true
    end.
Proof.
  unfold GetPathsFromPatterns. intros H.
  match type of H with
  | bindR ?a _ = _ => destruct a as [includes|e] eqn:E1; [|discriminate]
  end.
  cbn [bindR] in H.
  match type of H with
  | bindR ?a _ = _ => destruct a as [insensitive|e] eqn:E2; [|discriminate]
  end.
  cbn [bindR] in H. inversion H; subst.
  destruct (gathered _ _ _ _ E1 _ eq_refl) as (ff & -> & Hf).
  destruct (gathered _ _ _ _ E2 _ eq_refl) as (fi & -> & Hi).
  exists ff, fi. rewrite <- !app_assoc. auto.
Qed.

(** The matchers and the change-paths.  When [CollectPatterns]
    succeeds, so does [GetPathsFromPatterns], on the same patterns: the
    paths are the sensitive patterns followed by the insensitive ones,
    all of them valid, and the matchers are the insensitive one, if
    there are insensitive patterns, followed by the sensitive one, if
    there are sensitive patterns. *)
Theorem CollectPatterns_covers_paths opts matchers :
  CollectPatterns opts = Ok matchers ->
  exists includes insensitive,
    GetPathsFromPatterns opts = Ok (includes ++ insensitive) /\
    matchers
    = match insensitive with
      | [] => []
      | _ :: _ => [includeByInsensitivePattern insensitive]
      end
      ++ match includes with
         | [] => []
         | _ :: _ => [includeByPattern includes]
         end /\
    (insensitive <> [] -> ValidatePatterns insensitive = true) /\
    (includes <> [] -> ValidatePatterns includes = true).
Proof.
  unfold CollectPatterns, GetPathsFromPatterns. intros H.
  match type of H with
  | bindR ?a _ = _ => destruct a as [includes|e] eqn:E1; [|discriminate]
  end.
  cbn [bindR] in *.
  match type of H with
  | bindR ?a _ = _ => destruct a as [insensitive|e] eqn:E2; [|discriminate]
  end.
  cbn [bindR] in *. exists includes, insensitive. split; [reflexivity|].
  destruct insensitive as [|i insensitive]; destruct includes as [|c includes];
    cbn [length Nat.ltb Nat.leb bindR] in H.
  - inversion H. repeat split; congruence.
  - destruct (ValidatePatterns (c :: includes)) eqn:Ec; [|discriminate].
    inversion H. repeat split; congruence.
  - destruct (ValidatePatterns (i :: insensitive)) eqn:Ei; [|discriminate].
    inversion H. repeat split; congruence.
  - destruct (ValidatePatterns (i :: insensitive)) eqn:Ei; [|discriminate].
    cbn [bindR] in H.
    destruct (ValidatePatterns (c :: includes)) eqn:Ec; [|discriminate].
    inversion H. repeat split; congruence.
Qed.

(** The guard and the change-paths.  [Empty] holds exactly when no
    pattern file is named and [GetPathsFromPatterns] yields the empty
    list. *)
Theorem Empty_iff_no_files_and_no_paths opts :
  Empty opts = true <->
  IncludeFiles opts = [] /\ InsensitiveIncludeFiles opts = [] /\
  GetPathsFromPatterns opts = Ok [].
Proof.
  unfold Empty, GetPathsFromPatterns.
  destruct opts as [inc iinc files ifiles]. cbn [Includes InsensitiveIncludes
    IncludeFiles InsensitiveIncludeFiles]. split.
  - intros H. apply andb_prop in H. destruct H as [H H4].
    apply andb_prop in H. destruct H as [H H3].
    apply andb_prop in H. destruct H as [H1 H2].
    destruct inc; [|discriminate]. destruct iinc; [|discriminate].
    destruct files; [|discriminate]. destruct ifiles; [|discriminate].
    repeat split.
  - intros (-> & -> & H). cbn in H. inversion H as [Happ].
    apply app_eq_nil in Happ. destruct Happ as [-> ->]. reflexivity.
Qed.

End PatternProperties.

(** ** The command on the small repository *)

Import Scenario.

(** C4: the prior tree holds the files [a] and [b], the change-path
    list is [/a] and /a is not on disk.  The specification has the merge
    succeed with a tree that holds [b] only; [makeTree] leaves /a unmarked when
    it finds the deletion (line 124), inserts it before [b] as a new
    path (line 130) and returns the NotFound error of [os.Stat].  The
    deletion of the last entry, [b], does succeed. *)
Theorem C4_deletion_before_a_sibling_fails :
  nothing "/a" = StatNotExist /\
  outcome (merge nothing (enough_fuel "/" ["/a"]) (code_of_tree tree_a_b) "/" ["/a"]
                 (put tree_a_b empty_repo))
  = Some ([OpLoadTree (code_of_tree tree_a_b)], Err ErrNotExist) /\
  outcome (merge nothing (enough_fuel "/" ["/b"]) (code_of_tree tree_a_b) "/" ["/b"]
                 (put tree_a_b empty_repo))
  = Some ([OpLoadTree (code_of_tree tree_a_b);
           OpSaveTree (mkTree [file "a" 1]);
           OpSaveUnpacked (newline "a")],
          Ok (code_of_tree (mkTree [file "a" 1]))).
Proof. split; [|split]; vm_compute; reflexivity. Qed.

(** C6: the remaining change-paths of the directory are added at the
    end only when the last prior node is a directory that was copied
    (lines 183-195 lie behind the [continue] of line 154 and inside the
    loop).  With the prior tree [b], a file, and the change-path /c,
    which is on disk, the tree saved holds [b] only; with an empty prior
    tree the tree saved is empty; with a last node that is a directory
    the path is added. *)
Theorem C6_no_append_after_a_file :
  only "/c" "/c" = regular 9 /\
  outcome (merge (only "/c") (enough_fuel "/" ["/c"]) (code_of_tree tree_b) "/" ["/c"]
                 (put tree_b empty_repo))
  = Some ([OpLoadTree (code_of_tree tree_b); OpSaveTree tree_b;
           OpSaveUnpacked (newline "b")],
          Ok (code_of_tree tree_b)) /\
  outcome (merge (only "/c") (enough_fuel "/" ["/c"]) (code_of_tree tree_empty) "/" ["/c"]
                 (put tree_empty empty_repo))
  = Some ([OpLoadTree (code_of_tree tree_empty); OpSaveTree tree_empty;
           OpSaveUnpacked []],
          Ok (code_of_tree tree_empty)) /\
  option_map snd
    (merge (only "/c") (enough_fuel "/" ["/c"]) (code_of_tree tree_sub) "/" ["/c"]
           (put tree_empty (put tree_sub empty_repo)))
  = Some (Ok (code_of_tree
                (mkTree [directory "b" (Some (code_of_tree tree_empty));
                         fresh_node "/c" (regular_info 9)]))).
Proof. split; [|split; [|split]]; vm_compute; reflexivity. Qed.

(** C5, as stated, fails: /a is not on disk and names no prior node of
    the tree [b]; the merge of the list [/a] fails with NotFound, while
    the merge without the path succeeds. *)
Lemma C5_counterexample :
  nothing "/a" = StatNotExist /\
  (forall n, In n (Nodes tree_b) -> Name n <> "a") /\
  outcome (merge nothing (enough_fuel "/" ["/a"]) (code_of_tree tree_b) "/" ["/a"]
                 (put tree_b empty_repo))
  = Some ([OpLoadTree (code_of_tree tree_b)], Err ErrNotExist) /\
  outcome (merge nothing (enough_fuel "/" []) (code_of_tree tree_b) "/" []
                 (put tree_b empty_repo))
  = Some ([], Ok (code_of_tree tree_b)).
Proof.
  split; [reflexivity|]. split.
  - intros n [<-|[]]. discriminate.
  - split; vm_compute; reflexivity.
Qed.

(** C8, as stated, fails: the root holds the directories [a] and [b],
    the one change-path is /b/x; the subtree of [a], which contains no
    change-path, is loaded and saved again. *)
Lemma C8_counterexample :
  GoStrings.HasPrefix "/b/x" "/a/" = false /\
  exists repo' id,
    merge (only "/b/x") (enough_fuel "/" ["/b/x"]) (code_of_tree tree_root) "/" ["/b/x"]
          repo_root = Some (repo', Ok id) /\
    In (OpLoadTree (code_of_tree tree_f)) (journal repo') /\
    In (OpSaveTree tree_f) (journal repo').
Proof.
  split; [reflexivity|]. eexists. eexists. split; [vm_compute; reflexivity|].
  split; simpl; auto 10.
Qed.


(** C10, as stated, fails.  A first merge adds the directory /d, which
    is on disk, before the file [e]; the entry it makes has no subtree.
    On the tree so made, with the prefix /, the list of one empty string
    yields another tree (the entry now has the zero identifier as its
    subtree) than the empty list, which yields the identifier it was
    given.  With an empty prefix the empty string is added at the end of
    the tree and the merge fails. *)
Lemma C10_counterexample :
  (exists repo1 id1 id2,
      merge (only_dir "/d") (enough_fuel "/" ["/d"]) (code_of_tree tree_e) "/" ["/d"]
            (put tree_e empty_repo) = Some (repo1, Ok id1) /\
      trees repo1 !! id1
      = Some (mkTree [fresh_node "/d" directory_info; file "e" 1]) /\
      outcome (merge (only_dir "/d") (enough_fuel "/" [""]) id1 "/" [""] repo1)
      = Some (journal repo1
              ++ [OpLoadTree id1;
                  OpSaveTree (mkTree [set_Subtree (fresh_node "/d" directory_info) ID_zero;
                                      file "e" 1]);
                  OpSaveUnpacked (newline "d" ++ newline "e")],
              Ok id2) /\
      outcome (merge (only_dir "/d") (enough_fuel "/" []) id1 "/" [] repo1)
      = Some (journal repo1, Ok id1) /\
      id2 <> id1) /\
  (option_map snd (merge nothing (enough_fuel "" [""]) (code_of_tree tree_sub) "" [""]
                         (put tree_empty (put tree_sub empty_repo)))
   = Some (Err ErrNotExist) /\
   option_map snd (merge nothing (enough_fuel "" []) (code_of_tree tree_sub) "" []
                         (put tree_empty (put tree_sub empty_repo)))
   = Some (Ok (code_of_tree tree_sub))).
Proof.
  split.
  - eexists. eexists. eexists.
    split; [vm_compute; reflexivity|].
    split; [vm_compute; reflexivity|].
    split; [vm_compute; reflexivity|].
    split; [vm_compute; reflexivity|].
    vm_compute. discriminate.
  - split; vm_compute; reflexivity.
Qed.

(** *** The theorems at concrete inputs *)

Lemma C7_witness :
  trees (put tree_b_d empty_repo) !! code_of_tree tree_b_d
  = Some (mkTree [file "b" 1; file "d" 2]) /\
  only "/x/c" "/x/c" = StatInfo (regular_info 9) /\
  exists repo',
    merge (only "/x/c") 1 (code_of_tree tree_b_d) "/x/" ["/x/c"] (put tree_b_d empty_repo)
    = Some (repo', Ok (code_of_tree
                         (mkTree [file "b" 1; fresh_node "/x/c" (regular_info 9);
                                  file "d" 2]))) /\
    Name (fresh_node "/x/c" (regular_info 9)) = "c" /\
    journal repo' =
    journal (put tree_b_d empty_repo)
    ++ [OpLoadTree (code_of_tree tree_b_d);
        OpSaveTree (mkTree [file "b" 1; fresh_node "/x/c" (regular_info 9); file "d" 2]);
        OpSaveUnpacked (newline "b" ++ newline "c" ++ newline "d")].
Proof.
  split; [vm_compute; reflexivity|]. split; [reflexivity|].
  apply (C7_insertion_keeps_order
           (only "/x/c") ListBuilder [] list_AddNode list_Finalize code_of_tree no_fault
           0 (code_of_tree tree_b_d) (put tree_b_d empty_repo)
           (file "b" 1) (file "d" 2) (regular_info 9)
           [file "b" 1]
           [file "b" 1; fresh_node "/x/c" (regular_info 9)]
           [file "b" 1; fresh_node "/x/c" (regular_info 9); file "d" 2]
           (newline "b" ++ newline "c" ++ newline "d")).
  - vm_compute; reflexivity.
  - reflexivity.
  - reflexivity.
  - discriminate.
  - discriminate.
  - reflexivity.
  - reflexivity.
  - intros n; reflexivity.
  - reflexivity.
  - reflexivity.
  - reflexivity.
  - vm_compute; reflexivity.
Defined.

Lemma C5_witness :
  nothing "/a" = StatNotExist /\ "/a" <> "" /\
  (exists ps', scanPaths nothing ListBuilder list_AddNode "/" (file "a" 1)
                         [("/a", false)] false [] (NewTree 0)
               = Ok (ps', true, [], NewTree 0)) /\
  (exists repo' e,
      merge nothing (enough_fuel "/" ["/a"] + 0) (code_of_tree tree_b) "/" ["/a"]
            (put tree_b empty_repo) = Some (repo', Err e) /\
      (no_fault (length (journal (put tree_b empty_repo))) = false ->
       (exists rest, Nodes tree_b = file "b" 2 :: rest) ->
       (exists paths, ["/a"] = "/a" :: paths) ->
       e = ErrNotExist)).
Proof.
  assert (Hfs : nothing "/a" = StatNotExist) by reflexivity.
  assert (Hne : "/a" <> "") by discriminate.
  split; [exact Hfs|]. split; [exact Hne|].
  destruct (C5_missing_path_not_ignored
              nothing ListBuilder [] list_AddNode list_Finalize code_of_tree no_fault
              (code_of_tree tree_b) "/" ["/a"] (put tree_b empty_repo) 0 "/a"
              tree_b (file "b" 2) Hfs Hne) as [Hdel Hins].
  split.
  - apply Hdel. reflexivity.
  - apply Hins.
    + reflexivity.
    + left; reflexivity.
    + vm_compute; reflexivity.
    + intros node [<-|[]]. discriminate.
    + left; reflexivity.
    + vm_compute; reflexivity.
Defined.

Lemma C8_witness :
  (forall path, In path ["/b/x"] -> GoStrings.HasPrefix path "/a/" = false) /\
  exists repo' r,
    merge (only "/b/x") 1 (code_of_tree tree_f) "/a/" ["/b/x"] repo_root = Some (repo', r) /\
    (exists ops, journal repo' = journal repo_root ++ OpLoadTree (code_of_tree tree_f) :: ops /\
                 forall id, ~ In (OpLoadTree id) ops) /\
    (forall id, r = Ok id ->
       exists curTree t,
         trees repo_root !! code_of_tree tree_f = Some curTree /\ id = code_of_tree t /\
         In (OpSaveTree t) (journal repo') /\
         forall x, In x (Nodes t) <-> exists n, In n (Nodes curTree) /\ x = carry n).
Proof.
  assert (Hout : forall path, In path ["/b/x"] -> GoStrings.HasPrefix path "/a/" = false).
  { intros path [<-|[]]. reflexivity. }
  split; [exact Hout|].
  destruct (merge (only "/b/x") 1 (code_of_tree tree_f) "/a/" ["/b/x"] repo_root)
    as [[repo' r]|] eqn:E; [|vm_compute in E; discriminate].
  exists repo', r. split; [reflexivity|].
  exact (C8_unchanged_subtree_one_level
           (only "/b/x") ListBuilder [] list_AddNode list_Finalize code_of_tree no_fault
           0 (code_of_tree tree_f) "/a/" ["/b/x"] repo_root repo' r Hout E).
Defined.


Lemma C10_witness :
  "/" <> "" /\
  merge (only "/c") 2 (code_of_tree tree_sub) "/" [""; "/c"; ""]
        (put tree_empty (put tree_sub empty_repo))
  = merge (only "/c") 2 (code_of_tree tree_sub) "/" ["/c"]
          (put tree_empty (put tree_sub empty_repo)).
Proof.
  assert (Hdir : "/" <> "") by discriminate.
  split; [exact Hdir|].
  destruct (C10_blank_paths_inert
              (only "/c") ListBuilder [] list_AddNode list_Finalize code_of_tree no_fault
              2 (code_of_tree tree_sub) "/" [""; "/c"; ""]
              (put tree_empty (put tree_sub empty_repo)) Hdir) as [Heq _].
  apply Heq. discriminate.
Defined.

(** *** Further theorems at concrete inputs *)

Lemma modified_entry_replaced_witness :
  trees (put tree_a_b empty_repo) !! code_of_tree tree_a_b = Some tree_a_b /\
  only "/b" "/b" = StatInfo (regular_info 9) /\
  exists repo',
    merge (only "/b") 1 (code_of_tree tree_a_b) "/" ["/b"] (put tree_a_b empty_repo)
    = Some (repo', Ok (code_of_tree
                         (mkTree [file "a" 1; fresh_node "/b" (regular_info 9)]))) /\
    journal repo'
    = journal (put tree_a_b empty_repo)
      ++ [OpLoadTree (code_of_tree tree_a_b);
          OpSaveTree (mkTree [file "a" 1; fresh_node "/b" (regular_info 9)]);
          OpSaveUnpacked (newline "a" ++ newline "b")] /\
    (forall x, In x (Nodes (mkTree [file "a" 1; fresh_node "/b" (regular_info 9)])) <->
               In x ([file "a" 1] ++ fresh_node "/b" (regular_info 9) :: map carry [])) /\
    strictly_sorted (Nodes (mkTree [file "a" 1; fresh_node "/b" (regular_info 9)])).
Proof.
  split; [vm_compute; reflexivity|]. split; [reflexivity|].
  apply (modified_entry_replaced
           (only "/b") ListBuilder [] list_AddNode list_Finalize code_of_tree no_fault
           0 (code_of_tree tree_a_b) "/" "/b" (put tree_a_b empty_repo) tree_a_b
           [file "a" 1] (file "b" 2) [] (regular_info 9)
           [file "a" 1; fresh_node "/b" (regular_info 9)]
           (mkTree [file "a" 1; fresh_node "/b" (regular_info 9)])
           (newline "a" ++ newline "b")).
  - intros n; reflexivity.
  - vm_compute; reflexivity.
  - reflexivity.
  - reflexivity.
  - discriminate.
  - plain_nodes.
  - reflexivity.
  - reflexivity.
  - reflexivity.
  - vm_compute; reflexivity.
  - vm_compute; reflexivity.
Defined.

Lemma deleted_entry_dropped_witness :
  trees (put tree_a_b empty_repo) !! code_of_tree tree_a_b = Some tree_a_b /\
  nothing "/b" = StatNotExist /\
  exists repo',
    merge nothing 1 (code_of_tree tree_a_b) "/" ["/b"] (put tree_a_b empty_repo)
    = Some (repo', Ok (code_of_tree (mkTree [file "a" 1]))) /\
    journal repo'
    = journal (put tree_a_b empty_repo)
      ++ [OpLoadTree (code_of_tree tree_a_b); OpSaveTree (mkTree [file "a" 1]);
          OpSaveUnpacked (newline "a")] /\
    (forall x, In x (Nodes (mkTree [file "a" 1])) <-> In x ([file "a" 1] ++ [])) /\
    strictly_sorted (Nodes (mkTree [file "a" 1])).
Proof.
  split; [vm_compute; reflexivity|]. split; [reflexivity|].
  apply (deleted_entry_dropped
           nothing ListBuilder [] list_AddNode list_Finalize code_of_tree no_fault
           0 (code_of_tree tree_a_b) "/" "/b" (put tree_a_b empty_repo) tree_a_b
           [file "a" 1] (file "b" 2) [] [file "a" 1] (mkTree [file "a" 1]) (newline "a")).
  - intros n; reflexivity.
  - vm_compute; reflexivity.
  - reflexivity.
  - reflexivity.
  - discriminate.
  - plain_nodes.
  - constructor.
  - reflexivity.
  - reflexivity.
  - vm_compute; reflexivity.
  - vm_compute; reflexivity.
Defined.

Lemma new_entry_inserted_before_witness :
  trees (put tree_b_d empty_repo) !! code_of_tree tree_b_d = Some tree_b_d /\
  sorts_before "/x/" (file "d" 2) "/x/c" = true /\
  exists repo',
    merge (only "/x/c") 1 (code_of_tree tree_b_d) "/x/" ["/x/c"] (put tree_b_d empty_repo)
    = Some (repo', Ok (code_of_tree
                         (mkTree [file "b" 1; fresh_node "/x/c" (regular_info 9);
                                  file "d" 2]))) /\
    journal repo'
    = journal (put tree_b_d empty_repo)
      ++ [OpLoadTree (code_of_tree tree_b_d);
          OpSaveTree (mkTree [file "b" 1; fresh_node "/x/c" (regular_info 9);
                              file "d" 2]);
          OpSaveUnpacked (newline "b" ++ newline "c" ++ newline "d")] /\
    (forall x,
        In x (Nodes (mkTree [file "b" 1; fresh_node "/x/c" (regular_info 9);
                             file "d" 2])) <->
        In x ([file "b" 1] ++ fresh_node "/x/c" (regular_info 9)
                           :: map carry (file "d" 2 :: []))) /\
    strictly_sorted (Nodes (mkTree [file "b" 1; fresh_node "/x/c" (regular_info 9);
                                    file "d" 2])).
Proof.
  split; [vm_compute; reflexivity|]. split; [vm_compute; reflexivity|].
  apply (new_entry_inserted_before
           (only "/x/c") ListBuilder [] list_AddNode list_Finalize code_of_tree no_fault
           0 (code_of_tree tree_b_d) "/x/" "/x/c" (put tree_b_d empty_repo) tree_b_d
           [file "b" 1] (file "d" 2) [] (regular_info 9)
           [file "b" 1; fresh_node "/x/c" (regular_info 9); file "d" 2]
           (mkTree [file "b" 1; fresh_node "/x/c" (regular_info 9); file "d" 2])
           (newline "b" ++ newline "c" ++ newline "d")).
  - intros n; reflexivity.
  - vm_compute; reflexivity.
  - reflexivity.
  - reflexivity.
  - discriminate.
  - plain_nodes.
  - discriminate.
  - vm_compute; reflexivity.
  - reflexivity.
  - reflexivity.
  - vm_compute; reflexivity.
  - vm_compute; reflexivity.
Defined.

Lemma unmatched_paths_not_added_witness :
  trees (put tree_b empty_repo) !! code_of_tree tree_b = Some tree_b /\
  only "/c" "/c" = StatInfo (regular_info 9) /\
  exists repo',
    merge (only "/c") 1 (code_of_tree tree_b) "/" ["/c"] (put tree_b empty_repo)
    = Some (repo', Ok (code_of_tree tree_b)) /\
    journal repo'
    = journal (put tree_b empty_repo)
      ++ [OpLoadTree (code_of_tree tree_b); OpSaveTree tree_b;
          OpSaveUnpacked (newline "b")] /\
    (forall x, In x (Nodes tree_b) <-> In x (Nodes tree_b)).
Proof.
  split; [vm_compute; reflexivity|]. split; [reflexivity|].
  apply (unmatched_paths_not_added
           (only "/c") ListBuilder [] list_AddNode list_Finalize code_of_tree no_fault
           0 (code_of_tree tree_b) "/" "/c" [] (put tree_b empty_repo) tree_b
           [file "b" 2] tree_b (newline "b")).
  - intros n; reflexivity.
  - vm_compute; reflexivity.
  - plain_nodes.
  - vm_compute; reflexivity.
  - vm_compute; reflexivity.
Defined.


Lemma new_entry_added_after_last_directory_witness :
  trees (put tree_empty (put tree_sub empty_repo)) !! code_of_tree tree_sub
  = Some tree_sub /\
  passes "/" (directory "b" (Some (code_of_tree tree_empty))) "/c" = true /\
  exists repo',
    merge (only "/c") 2 (code_of_tree tree_sub) "/" ["/c"]
          (put tree_empty (put tree_sub empty_repo))
    = Some (repo',
            Ok (code_of_tree
                  (mkTree [directory "b" (Some (code_of_tree tree_empty));
                           fresh_node "/c" (regular_info 9)]))).
Proof.
  split; [vm_compute; reflexivity|]. split; [vm_compute; reflexivity|].
  destruct (new_entry_added_after_last_directory
              (only "/c") ListBuilder [] list_AddNode list_Finalize code_of_tree no_fault
              1 (code_of_tree tree_sub) "/" "/c"
              (put tree_empty (put tree_sub empty_repo)) tree_sub
              [] (directory "b" (Some (code_of_tree tree_empty))) (regular_info 9)
              (after (merge (only "/c") 1 (code_of_tree tree_empty) "/b/" ["/c"]
                            (log_op (OpLoadTree (code_of_tree tree_sub))
                                    (put tree_empty (put tree_sub empty_repo)))))
              (code_of_tree tree_empty)
              [directory "b" (Some (code_of_tree tree_empty));
               fresh_node "/c" (regular_info 9)]
              (mkTree [directory "b" (Some (code_of_tree tree_empty));
                       fresh_node "/c" (regular_info 9)])
              (newline "b" ++ newline "c")) as (repo' & Hres & _).
  - intros n; reflexivity.
  - vm_compute; reflexivity.
  - reflexivity.
  - reflexivity.
  - discriminate.
  - constructor.
  - reflexivity.
  - vm_compute; reflexivity.
  - vm_compute; reflexivity.
  - reflexivity.
  - reflexivity.
  - vm_compute; reflexivity.
  - vm_compute; reflexivity.
  - vm_compute; reflexivity.
  - exists repo'. exact Hres.
Defined.


Lemma repeated_path_is_duplicate_witness :
  trees (put tree_b empty_repo) !! code_of_tree tree_b = Some tree_b /\
  String.eqb ("/" ++ Name (file "b" 2)) "/a" || sorts_before "/" (file "b" 2) "/a" = true /\
  merge (only "/a") 1 (code_of_tree tree_b) "/" ["/a"; "/a"] (put tree_b empty_repo)
  = Some (log_op (OpLoadTree (code_of_tree tree_b)) (put tree_b empty_repo),
          Err (ErrDuplicate (filepath.Base "/a"))).
Proof.
  split; [vm_compute; reflexivity|]. split; [vm_compute; reflexivity|].
  apply (repeated_path_is_duplicate
           (only "/a") ListBuilder [] list_AddNode list_Finalize code_of_tree no_fault
           0 (code_of_tree tree_b) "/" "/a" [] (put tree_b empty_repo) tree_b
           [] (file "b" 2) [] (regular_info 9)
           [] (NewTree 0) (mkTree [fresh_node "/a" (regular_info 9)])
           [fresh_node "/a" (regular_info 9)]).
  - reflexivity.
  - vm_compute; reflexivity.
  - reflexivity.
  - reflexivity.
  - discriminate.
  - constructor.
  - vm_compute; reflexivity.
  - reflexivity.
  - reflexivity.
  - reflexivity.
  - vm_compute; reflexivity.
  - vm_compute; reflexivity.
Defined.

Lemma wellformed_tree_keeps_identifier_witness :
  trees repo_root !! code_of_tree tree_f = Some tree_f /\
  (forall p, In p ["/b/x"] -> GoStrings.HasPrefix p "/a/" = false) /\
  merge (only "/b/x") 1 (code_of_tree tree_f) "/a/" ["/b/x"] repo_root
  = Some ({| trees := trees repo_root; packs := packs repo_root ++ [newline "f"];
             journal := journal repo_root
                        ++ [OpLoadTree (code_of_tree tree_f); OpSaveTree tree_f;
                            OpSaveUnpacked (newline "f")] |},
          Ok (code_of_tree tree_f)).
Proof.
  assert (Hout : forall p, In p ["/b/x"] -> GoStrings.HasPrefix p "/a/" = false).
  { intros p [<-|[]]. reflexivity. }
  split; [vm_compute; reflexivity|]. split; [exact Hout|].
  apply (wellformed_tree_keeps_identifier
           (only "/b/x") ListBuilder [] list_AddNode list_Finalize code_of_tree no_fault
           0 (code_of_tree tree_f) "/a/" "/b/x" [] repo_root tree_f
           [file "f" 1] tree_f (newline "f")).
  - intros n; reflexivity.
  - vm_compute; reflexivity.
  - exact Hout.
  - repeat constructor.
  - constructor; [|constructor]. intros H. discriminate H.
  - reflexivity.
  - vm_compute; reflexivity.
  - vm_compute; reflexivity.
Defined.

Lemma lock_is_released_witness :
  Empty (include_options bool one_include) && Metadata bool one_include = false /\
  exists w' r mid,
    run one_include world0 = Some (w', r) /\
    w_events w' = w_events world0 ++ EvOpenWithAppendLock :: mid ++ [EvUnlock] /\
    ~ In EvUnlock mid /\ ~ In EvOpenWithAppendLock mid.
Proof.
  split; [reflexivity|].
  apply (lock_is_released
           nothing ListBuilder [] list_AddNode list_Finalize code_of_tree no_fault
           (fun _ => Ok []) (fun _ => true) bool (fun m => m)
           (Ok tt) (Ok tt) (Ok snapshot0) (Ok tt) 1%Z None (Ok 0%N) one_include world0);
    reflexivity.
Defined.

Lemma snapshot_only_after_merge_and_flush_witness :
  run one_include world0 = Some (world_after (run one_include world0), Ok tt) /\
  In (EvSaveSnapshot {| Paths := ["/"]; Tags := []; Hostname := "host";
                        SnapshotTime := 1; SnapshotTree := code_of_tree tree_b |})
     (w_events (world_after (run one_include world0))) /\
  w_events (world_after (run one_include world0))
  = [EvOpenWithAppendLock; EvLoadIndex; EvFindLatest; EvStartPackUploader; EvFlush;
     EvSaveSnapshot {| Paths := ["/"]; Tags := []; Hostname := "host";
                       SnapshotTime := 1; SnapshotTree := code_of_tree tree_b |};
     EvUnlock].
Proof.
  assert (Hrun : run one_include world0
                 = Some (world_after (run one_include world0), Ok tt))
    by (vm_compute; reflexivity).
  assert (Hin : In (EvSaveSnapshot {| Paths := ["/"]; Tags := []; Hostname := "host";
                                      SnapshotTime := 1;
                                      SnapshotTree := code_of_tree tree_b |})
                   (w_events (world_after (run one_include world0))))
    by (vm_compute; auto 10).
  split; [exact Hrun|]. split; [exact Hin|].
  destruct (snapshot_only_after_merge_and_flush
              nothing ListBuilder [] list_AddNode list_Finalize code_of_tree no_fault
              (fun _ => Ok []) (fun _ => true) bool (fun m => m)
              (Ok tt) (Ok tt) (Ok snapshot0) (Ok tt) 1%Z None (Ok 0%N)
              one_include world0 (world_after (run one_include world0)) (Ok tt)
              _ Hrun Hin) as [[]|(sn & paths & treeID & _ & _ & _ & _ & _ & _ & Hev)].
  exact Hev.
Defined.

Lemma empty_path_list_copies_snapshot_witness :
  Empty (include_options bool file_only) && Metadata bool file_only = false /\
  GetPathsFromPatterns (fun _ => Ok []) (fun _ => true) (include_options bool file_only)
  = Ok [] /\
  runIncremental nothing ListBuilder [] list_AddNode list_Finalize code_of_tree no_fault
                 (fun _ => Ok []) (fun _ => true) bool (fun m => m)
                 (Ok tt) (Ok tt) (Ok snapshot0) (Ok tt) 1 (Some (ErrFatal "no snapshot"))
                 (Ok 0%N) file_only world0
  = Some ({| w_repo := w_repo world0;
             w_events := w_events world0
                         ++ [EvOpenWithAppendLock; EvLoadIndex; EvFindLatest;
                             EvStartPackUploader; EvFlush; EvUnlock] |},
          Err (ErrFatal "no snapshot")) /\
  run file_only world0
  = Some ({| w_repo := w_repo world0;
             w_events := w_events world0
                         ++ [EvOpenWithAppendLock; EvLoadIndex; EvFindLatest;
                             EvStartPackUploader; EvFlush;
                             EvSaveSnapshot {| Paths := Paths snapshot0;
                                               Tags := Tags snapshot0;
                                               Hostname := Hostname snapshot0;
                                               SnapshotTime := 1;
                                               SnapshotTree := SnapshotTree snapshot0 |};
                             EvUnlock] |},
          Ok tt).
Proof.
  split; [reflexivity|]. split; [reflexivity|]. split.
  - apply (empty_path_list_copies_snapshot
             nothing ListBuilder [] list_AddNode list_Finalize code_of_tree no_fault
             (fun _ => Ok []) (fun _ => true) bool (fun m => m)
             (Ok tt) (Ok tt) (Ok snapshot0) (Ok tt) 1%Z (Some (ErrFatal "no snapshot"))
             (Ok 0%N) file_only world0 snapshot0 0%N);
      reflexivity.
  - apply (empty_path_list_copies_snapshot
             nothing ListBuilder [] list_AddNode list_Finalize code_of_tree no_fault
             (fun _ => Ok []) (fun _ => true) bool (fun m => m)
             (Ok tt) (Ok tt) (Ok snapshot0) (Ok tt) 1%Z None (Ok 0%N)
             file_only world0 snapshot0 0%N);
      reflexivity.
Defined.

Lemma GetPathsFromPatterns_order_witness :
  GetPathsFromPatterns read_c all_valid mixed_includes = Ok ["/a"; "/c"; "/B"] /\
  exists fromFiles fromInsensitiveFiles,
    ["/a"; "/c"; "/B"]
    = Includes mixed_includes ++ fromFiles
      ++ InsensitiveIncludes mixed_includes ++ fromInsensitiveFiles /\
    match IncludeFiles mixed_includes with
    | [] => fromFiles = []
    | _ :: _ => read_c (IncludeFiles mixed_includes) = Ok fromFiles /\
                all_valid fromFiles = true
    end /\
    match InsensitiveIncludeFiles mixed_includes with
    | [] => fromInsensitiveFiles = []
    | _ :: _ => read_c (InsensitiveIncludeFiles mixed_includes)
                = Ok fromInsensitiveFiles /\
                all_valid fromInsensitiveFiles = true
    end.
Proof.
  split; [reflexivity|].
  apply (GetPathsFromPatterns_order read_c all_valid mixed_includes ["/a"; "/c"; "/B"]).
  reflexivity.
Defined.

Lemma CollectPatterns_covers_paths_witness :
  CollectPatterns read_c all_valid same_case listed mixed_includes
  = Ok [includeByInsensitivePattern same_case listed ["/B"];
        includeByPattern listed ["/a"; "/c"]] /\
  exists includes insensitive,
    GetPathsFromPatterns read_c all_valid mixed_includes = Ok (includes ++ insensitive) /\
    [includeByInsensitivePattern same_case listed ["/B"];
     includeByPattern listed ["/a"; "/c"]]
    = match insensitive with
      | [] => []
      | _ :: _ => [includeByInsensitivePattern same_case listed insensitive]
      end
      ++ match includes with
         | [] => []
         | _ :: _ => [includeByPattern listed includes]
         end /\
    (insensitive <> [] -> all_valid insensitive = true) /\
    (includes <> [] -> all_valid includes = true).
Proof.
  split; [reflexivity|].
  apply (CollectPatterns_covers_paths read_c all_valid same_case listed mixed_includes).
  reflexivity.
Defined.
